(** * DiffLocal: the demo diff engine of [src/demo/demoData.ts]

    A shallow embedding of [generateDiffLines], [calculateDiffStats] and
    [generateDemoResult], of the types of [types/diff.ts] they use, and of
    the part of the [DemoProvider] (contexts/DemoContext.tsx) that calls
    them, followed by the properties of the diff specification checked
    against that code.

    Conventions.
    - A JavaScript string is a sequence of code units; it is modelled by
      [string].  The engine only ever compares code units with the line
      feed and whole strings with [===], so nothing depends on the width of
      a code unit.
    - Array indices, line numbers and counters are natural numbers: the
      code starts them at 0 or 1 and only increments them.
    - [Array.prototype.indexOf] returns -1 when nothing is found, so its
      result is a [Z].
    - An optional property ([left?: number], [changes?: CharChange[]]) is
      an [option]; [None] is the absent property. *)

From Stdlib Require Import List String Ascii ZArith Arith Bool Lia.
Import ListNotations.
Open Scope string_scope.
Open Scope list_scope.

(** ** The JavaScript primitives used by the engine *)

Module Js.

(** The separator of [split('\n')]. *)
Definition LF : ascii := "010"%char.

(** The string literal ['\n']. *)
Definition newline : string := String LF EmptyString.

(** [s.split('\n')]: the segments between line feeds, in order.  The
    result is never empty: the empty string gives one empty segment, and
    a final line feed gives a final empty segment. *)
Fixpoint split (s : string) : list string :=
  match s with
  | EmptyString => [EmptyString]
  | String c rest =>
      if Ascii.eqb c LF then EmptyString :: split rest
      else match split rest with
           | seg :: segs => String c seg :: segs
           | [] => [String c EmptyString]
           end
  end.

(** [arr.slice(k)] for an index [k >= 0]: the elements from [k] on. *)
Definition slice {A : Type} (arr : list A) (k : nat) : list A := skipn k arr.

(** The scan of [arr.indexOf(x)], started at index [k]. *)
Fixpoint indexOf_from (arr : list string) (x : string) (k : Z) : Z :=
  match arr with
  | [] => (-1)%Z
  | y :: arr' => if String.eqb y x then k else indexOf_from arr' x (k + 1)%Z
  end.

(** [arr.indexOf(x)]: the first index holding a string [=== x], or -1. *)
Definition indexOf (arr : list string) (x : string) : Z := indexOf_from arr x 0%Z.

(** [arr.push(x)], as the new value of the array. *)
Definition push {A : Type} (arr : list A) (x : A) : list A := arr ++ [x].

End Js.

(** ** types/diff.ts *)

Inductive DiffGranularity : Type := line | word | character.

Record DiffOptions : Type := {
  granularity : DiffGranularity;
  ignoreWhitespace : bool;
  ignoreCase : bool;
  trimTrailingWhitespace : bool;
  ignoreBlankLines : bool
}.

(** ['add' | 'remove' | 'unchanged'] *)
Inductive LineType : Type := Add | Remove | Unchanged.

Record CharChange : Type := {
  charType : LineType;
  value : string
}.

Record LineNumbers : Type := {
  left : option nat;
  right : option nat
}.

Record DiffLine : Type := {
  type : LineType;
  content : string;
  lineNumbers : LineNumbers;
  changes : option (list CharChange)
}.

Record DiffStats : Type := {
  added : nat;
  removed : nat;
  unchanged : nat;
  totalLeft : nat;
  totalRight : nat
}.

Record DiffResult : Type := {
  lines : list DiffLine;
  stats : DiffStats
}.

Definition DEFAULT_DIFF_OPTIONS : DiffOptions := {|
  granularity := line;
  ignoreWhitespace := false;
  ignoreCase := false;
  trimTrailingWhitespace := false;
  ignoreBlankLines := false
|}.

Definition LineType_eqb (a b : LineType) : bool :=
  match a, b with
  | Add, Add | Remove, Remove | Unchanged, Unchanged => true
  | _, _ => false
  end.

(** ** demo/demoData.ts: generateDiffLines *)

(** The three object literals the loop pushes. *)
Definition addLine (modLine : string) (rightLine : nat) : DiffLine := {|
  type := Add;
  content := modLine;
  lineNumbers := {| left := None; right := Some rightLine |};
  changes := None
|}.

Definition removeLine (origLine : string) (leftLine : nat) : DiffLine := {|
  type := Remove;
  content := origLine;
  lineNumbers := {| left := Some leftLine; right := None |};
  changes := None
|}.

Definition unchangedLine (origLine : string) (leftLine rightLine : nat) : DiffLine := {|
  type := Unchanged;
  content := origLine;
  lineNumbers := {| left := Some leftLine; right := Some rightLine |};
  changes := None
|}.

(** The variables the [while] loop updates. *)
Module Loop.
Record state : Type := {
  lines : list DiffLine;
  leftLine : nat;
  rightLine : nat;
  i : nat;
  j : nat
}.
End Loop.

Section Engine.

Variables originalLines modifiedLines : list string.

(** One turn of the loop: [None] when the loop condition
    [i < originalLines.length || j < modifiedLines.length] is false, the
    updated variables otherwise.  [originalLines[i]] is [undefined]
    exactly when [i >= originalLines.length], which is [nth_error]
    returning [None]; so the condition and the first two guards of the
    body are the case analysis on the two look-ups. *)
Definition loop_body (st : Loop.state) : option Loop.state :=
  let lines := Loop.lines st in
  let leftLine := Loop.leftLine st in
  let rightLine := Loop.rightLine st in
  let i := Loop.i st in
  let j := Loop.j st in
  match nth_error originalLines i, nth_error modifiedLines j with
  | None, None => None
  | None, Some modLine =>
      (* only modified lines left *)
      Some {| Loop.lines := Js.push lines (addLine modLine rightLine);
              Loop.leftLine := leftLine; Loop.rightLine := S rightLine;
              Loop.i := i; Loop.j := S j |}
  | Some origLine, None =>
      (* only original lines left *)
      Some {| Loop.lines := Js.push lines (removeLine origLine leftLine);
              Loop.leftLine := S leftLine; Loop.rightLine := rightLine;
              Loop.i := S i; Loop.j := j |}
  | Some origLine, Some modLine =>
      if String.eqb origLine modLine then
        (* lines match *)
        Some {| Loop.lines := Js.push lines (unchangedLine origLine leftLine rightLine);
                Loop.leftLine := S leftLine; Loop.rightLine := S rightLine;
                Loop.i := S i; Loop.j := S j |}
      else
        let origInMod := Js.indexOf (Js.slice modifiedLines j) origLine in
        let modInOrig := Js.indexOf (Js.slice originalLines i) modLine in
        if ((origInMod =? -1) && (modInOrig =? -1))%Z then
          (* both lines are unique: a modification *)
          Some {| Loop.lines :=
                    Js.push (Js.push lines (removeLine origLine leftLine))
                            (addLine modLine rightLine);
                  Loop.leftLine := S leftLine; Loop.rightLine := S rightLine;
                  Loop.i := S i; Loop.j := S j |}
        else if (negb (origInMod =? -1)
                 && ((modInOrig =? -1) || (origInMod <=? modInOrig)))%Z then
          (* the original line appears later in modified: add *)
          Some {| Loop.lines := Js.push lines (addLine modLine rightLine);
                  Loop.leftLine := leftLine; Loop.rightLine := S rightLine;
                  Loop.i := i; Loop.j := S j |}
        else
          (* the modified line appears later in original: remove *)
          Some {| Loop.lines := Js.push lines (removeLine origLine leftLine);
                  Loop.leftLine := S leftLine; Loop.rightLine := rightLine;
                  Loop.i := S i; Loop.j := j |}
  end.

(** The [while] loop, with a bound on the number of turns: [None] when
    the bound is reached before the loop condition fails. *)
Fixpoint while (fuel : nat) (st : Loop.state) : option Loop.state :=
  match loop_body st with
  | None => Some st
  | Some st' =>
      match fuel with
      | O => None
      | S fuel' => while fuel' st'
      end
  end.

(** [lines = []], [leftLine = 1], [rightLine = 1], [i = 0], [j = 0]. *)
Definition initial : Loop.state := {|
  Loop.lines := [];
  Loop.leftLine := 1; Loop.rightLine := 1;
  Loop.i := 0; Loop.j := 0
|}.

(** Every turn advances [i] or [j], so this many turns are enough
    ([while_enough_fuel] below). *)
Definition turns : nat := List.length originalLines + List.length modifiedLines.

Definition diffLoop : option Loop.state := while turns initial.

End Engine.

Definition generateDiffLines_opt (original modified : string) : option (list DiffLine) :=
  let originalLines := Js.split original in
  let modifiedLines := Js.split modified in
  option_map Loop.lines (diffLoop originalLines modifiedLines).

(** [generateDiffLines]; the default is never taken
    ([generateDiffLines_returns]). *)
Definition generateDiffLines (original modified : string) : list DiffLine :=
  match generateDiffLines_opt original modified with
  | Some lines => lines
  | None => []
  end.

(** ** demo/demoData.ts: calculateDiffStats and generateDemoResult *)

(** The accumulator of the [reduce]. *)
Module Acc.
Record t : Type := { added : nat; removed : nat; unchanged : nat }.
End Acc.

Definition countLine (acc : Acc.t) (line : DiffLine) : Acc.t :=
  match type line with
  | Add => {| Acc.added := S (Acc.added acc); Acc.removed := Acc.removed acc;
              Acc.unchanged := Acc.unchanged acc |}
  | Remove => {| Acc.added := Acc.added acc; Acc.removed := S (Acc.removed acc);
                 Acc.unchanged := Acc.unchanged acc |}
  | Unchanged => {| Acc.added := Acc.added acc; Acc.removed := Acc.removed acc;
                    Acc.unchanged := S (Acc.unchanged acc) |}
  end.

Definition calculateDiffStats (lines : list DiffLine)
    (originalLineCount modifiedLineCount : nat) : DiffStats :=
  let stats :=
    fold_left countLine lines {| Acc.added := 0; Acc.removed := 0; Acc.unchanged := 0 |} in
  {| added := Acc.added stats;
     removed := Acc.removed stats;
     unchanged := Acc.unchanged stats;
     totalLeft := originalLineCount;
     totalRight := modifiedLineCount |}.

Definition generateDemoResult (original modified : string) : DiffResult :=
  let lines := generateDiffLines original modified in
  let stats :=
    calculateDiffStats lines
      (List.length (Js.split original))
      (List.length (Js.split modified)) in
  {| lines := lines; stats := stats |}.


(** [DEMO_DIFF_OPTIONS]: the default options with [granularity: 'line']. *)
Definition DEMO_DIFF_OPTIONS : DiffOptions := {|
  granularity := line;
  ignoreWhitespace := ignoreWhitespace DEFAULT_DIFF_OPTIONS;
  ignoreCase := ignoreCase DEFAULT_DIFF_OPTIONS;
  trimTrailingWhitespace := trimTrailingWhitespace DEFAULT_DIFF_OPTIONS;
  ignoreBlankLines := ignoreBlankLines DEFAULT_DIFF_OPTIONS
|}.

(** ** contexts/DemoContext.tsx: the state of the [DemoProvider] *)

Inductive Category : Type := code | config | text.

Module DemoScenario.
Record t : Type := {
  id : string;
  title : string;
  description : string;
  category : Category;
  original : string;
  modified : string;
  filename : string
}.
End DemoScenario.

(** [Partial<DiffOptions>]: every property optional. *)
Module PartialDiffOptions.
Record t : Type := {
  granularity : option DiffGranularity;
  ignoreWhitespace : option bool;
  ignoreCase : option bool;
  trimTrailingWhitespace : option bool;
  ignoreBlankLines : option bool
}.
End PartialDiffOptions.

(** The four [useState] cells of the provider. *)
Module DemoState.
Record t : Type := {
  isDemo : bool;
  activeScenario : option DemoScenario.t;
  diffResult : option DiffResult;
  options : DiffOptions
}.
End DemoState.

Definition DemoState_initial : DemoState.t := {|
  DemoState.isDemo := false;
  DemoState.activeScenario := None;
  DemoState.diffResult := None;
  DemoState.options := DEMO_DIFF_OPTIONS
|}.

(** [computeDiff]: [setDiffResult(generateDemoResult(scenario.original,
    scenario.modified))].  The options cell is neither read nor passed on. *)
Definition computeDiff (scenario : DemoScenario.t) (st : DemoState.t) : DemoState.t := {|
  DemoState.isDemo := DemoState.isDemo st;
  DemoState.activeScenario := DemoState.activeScenario st;
  DemoState.diffResult :=
    Some (generateDemoResult (DemoScenario.original scenario)
                             (DemoScenario.modified scenario));
  DemoState.options := DemoState.options st
|}.

(** A property of [{ ...prev, ...newOptions }]. *)
Definition spread {A : Type} (prev : A) (new : option A) : A :=
  match new with
  | Some v => v
  | None => prev
  end.

(** [updateOptions]: [setOptions(prev => ({ ...prev, ...newOptions }))]. *)
Definition updateOptions (newOptions : PartialDiffOptions.t) (st : DemoState.t)
    : DemoState.t :=
  let prev := DemoState.options st in {|
  DemoState.isDemo := DemoState.isDemo st;
  DemoState.activeScenario := DemoState.activeScenario st;
  DemoState.diffResult := DemoState.diffResult st;
  DemoState.options := {|
    granularity := spread (granularity prev) (PartialDiffOptions.granularity newOptions);
    ignoreWhitespace :=
      spread (ignoreWhitespace prev) (PartialDiffOptions.ignoreWhitespace newOptions);
    ignoreCase := spread (ignoreCase prev) (PartialDiffOptions.ignoreCase newOptions);
    trimTrailingWhitespace :=
      spread (trimTrailingWhitespace prev)
             (PartialDiffOptions.trimTrailingWhitespace newOptions);
    ignoreBlankLines :=
      spread (ignoreBlankLines prev) (PartialDiffOptions.ignoreBlankLines newOptions)
  |}
|}.

(** ** Vocabulary of the specification *)

(** A line consumes the left input when it is [Unchanged] or [Remove], the
    right input when it is [Unchanged] or [Add]. *)
Definition consumesLeft (l : DiffLine) : bool :=
  match type l with
  | Add => false
  | Remove | Unchanged => true
  end.

Definition consumesRight (l : DiffLine) : bool :=
  match type l with
  | Remove => false
  | Add | Unchanged => true
  end.

Definition hasType (t : LineType) (l : DiffLine) : bool := LineType_eqb (type l) t.

Definition leftContents (ls : list DiffLine) : list string :=
  map content (filter consumesLeft ls).

Definition rightContents (ls : list DiffLine) : list string :=
  map content (filter consumesRight ls).

Definition keptContents (ls : list DiffLine) : list string :=
  map content (filter (hasType Unchanged) ls).

(** How many lines of a kind a list holds. *)
Definition countType (t : LineType) (ls : list DiffLine) : nat :=
  List.length (filter (hasType t) ls).

(** The population of the line numbers the data model asks for. *)
Definition numbered (l : DiffLine) : Prop :=
  match type l with
  | Unchanged => left (lineNumbers l) <> None /\ right (lineNumbers l) <> None
  | Add => left (lineNumbers l) = None /\ right (lineNumbers l) <> None
  | Remove => left (lineNumbers l) <> None /\ right (lineNumbers l) = None
  end.

(** The reference computation of the length of a longest common
    subsequence: the classical recurrence. *)
Fixpoint LCSLength (xs : list string) : list string -> nat :=
  match xs with
  | [] => fun _ => 0
  | x :: xs' =>
      fix inner (ys : list string) : nat :=
        match ys with
        | [] => 0
        | y :: ys' =>
            if String.eqb x y then S (LCSLength xs' ys')
            else Nat.max (LCSLength xs' ys) (inner ys')
        end
  end.

(** [Subseq zs xs]: [zs] is [xs] with some elements left out. *)
Inductive Subseq {A : Type} : list A -> list A -> Prop :=
| Subseq_nil : Subseq [] []
| Subseq_skip : forall x zs xs, Subseq zs xs -> Subseq zs (x :: xs)
| Subseq_take : forall x zs xs, Subseq zs xs -> Subseq (x :: zs) (x :: xs).

(** Inputs of several lines, written line by line: the lines joined by
    ['\n']. *)
Definition joinLines (ls : list string) : string := String.concat Js.newline ls.

(** [lineCount(s)]: the number of line tokens of [s], counted the way
    [generateDemoResult] counts them, [s.split('\n').length]. *)
Definition lineCount (s : string) : nat := List.length (Js.split s).

(** A scenario comparing [original] with [modified]. *)
Definition scenarioOf (original modified : string) : DemoScenario.t := {|
  DemoScenario.id := "scenario";
  DemoScenario.title := "Scenario";
  DemoScenario.description := "";
  DemoScenario.category := text;
  DemoScenario.original := original;
  DemoScenario.modified := modified;
  DemoScenario.filename := "scenario.txt"
|}.

(** [{ ignoreCase: true }] as a [Partial<DiffOptions>]. *)
Definition onlyIgnoreCase : PartialDiffOptions.t := {|
  PartialDiffOptions.granularity := None;
  PartialDiffOptions.ignoreWhitespace := None;
  PartialDiffOptions.ignoreCase := Some true;
  PartialDiffOptions.trimTrailingWhitespace := None;
  PartialDiffOptions.ignoreBlankLines := None
|}.

(** The tokenizer of the specification at line granularity (4.2 and 8),
    in its words: the text is split on line breaks, a trailing empty
    segment produced by a final line terminator is dropped (["a\n"] gives
    the one token ["a"]), and the empty string gives one token, the empty
    line.  It is written on its own, not by way of [Js.split], to be
    compared with it. *)
Fixpoint specTokenize (s : string) : list string :=
  match s with
  | EmptyString => [EmptyString]
  | String c rest =>
      if Ascii.eqb c Js.LF then
        match rest with
        | EmptyString => [EmptyString]
        | String _ _ => EmptyString :: specTokenize rest
        end
      else
        match specTokenize rest with
        | seg :: segs => String c seg :: segs
        | [] => [String c EmptyString]
        end
  end.

(** [lineCount(s)] of the specification: the number of its line tokens. *)
Definition specLineCount (s : string) : nat := List.length (specTokenize s).

(** The text ends with a line terminator. *)
Fixpoint endsWithLF (s : string) : bool :=
  match s with
  | EmptyString => false
  | String c EmptyString => Ascii.eqb c Js.LF
  | String _ rest => endsWithLF rest
  end.

(** The empty segment [split] has after a final line terminator. *)
Definition trailingSegment (s : string) : list string :=
  if endsWithLF s then [EmptyString] else [].

(** The number of line feeds of a string. *)
Fixpoint countLF (s : string) : nat :=
  match s with
  | EmptyString => 0
  | String c rest => (if Ascii.eqb c Js.LF then 1 else 0) + countLF rest
  end.

Section EngineRelation.

Variables originalLines modifiedLines : list string.

(** The four effects a turn of the loop can have.  A turn that does not
    keep a line has found the two current entries different (one of them
    possibly missing). *)
Inductive turn : Loop.state -> Loop.state -> Prop :=
| turn_add : forall ls l r i j modLine,
    nth_error modifiedLines j = Some modLine ->
    nth_error originalLines i <> nth_error modifiedLines j ->
    turn (Loop.Build_state ls l r i j)
         (Loop.Build_state (ls ++ [addLine modLine r]) l (S r) i (S j))
| turn_remove : forall ls l r i j origLine,
    nth_error originalLines i = Some origLine ->
    nth_error originalLines i <> nth_error modifiedLines j ->
    turn (Loop.Build_state ls l r i j)
         (Loop.Build_state (ls ++ [removeLine origLine l]) (S l) r (S i) j)
| turn_keep : forall ls l r i j origLine,
    nth_error originalLines i = Some origLine ->
    nth_error modifiedLines j = Some origLine ->
    turn (Loop.Build_state ls l r i j)
         (Loop.Build_state (ls ++ [unchangedLine origLine l r]) (S l) (S r) (S i) (S j))
| turn_modify : forall ls l r i j origLine modLine,
    nth_error originalLines i = Some origLine ->
    nth_error modifiedLines j = Some modLine ->
    origLine <> modLine ->
    turn (Loop.Build_state ls l r i j)
         (Loop.Build_state ((ls ++ [removeLine origLine l]) ++ [addLine modLine r])
                           (S l) (S r) (S i) (S j)).

(** What is left to read. *)
Definition remaining (st : Loop.state) : nat :=
  (List.length originalLines - Loop.i st) + (List.length modifiedLines - Loop.j st).

End EngineRelation.

(** ** contexts/DemoContext.tsx: the actions of the [DemoProvider] *)

(** The setters of the [useState] cells. *)
Definition setIsDemo (v : bool) (st : DemoState.t) : DemoState.t := {|
  DemoState.isDemo := v;
  DemoState.activeScenario := DemoState.activeScenario st;
  DemoState.diffResult := DemoState.diffResult st;
  DemoState.options := DemoState.options st
|}.

Definition setActiveScenario (v : option DemoScenario.t) (st : DemoState.t)
    : DemoState.t := {|
  DemoState.isDemo := DemoState.isDemo st;
  DemoState.activeScenario := v;
  DemoState.diffResult := DemoState.diffResult st;
  DemoState.options := DemoState.options st
|}.

Definition setDiffResult (v : option DiffResult) (st : DemoState.t) : DemoState.t := {|
  DemoState.isDemo := DemoState.isDemo st;
  DemoState.activeScenario := DemoState.activeScenario st;
  DemoState.diffResult := v;
  DemoState.options := DemoState.options st
|}.

Section Provider.

(** The provider uses the constant [DEMO_SCENARIOS] of demoData.ts only
    through [find] by id and through its first element; its four entries
    are sample texts.  The list is a parameter here. *)
Variable DEMO_SCENARIOS : list DemoScenario.t.

(** [DEMO_SCENARIOS.find((s) => s.id === scenarioId)], where a missing
    [scenarioId] is [undefined] and [===] to no id. *)
Definition findScenario (scenarioId : option string) : option DemoScenario.t :=
  match scenarioId with
  | Some wanted =>
      find (fun s => String.eqb (DemoScenario.id s) wanted) DEMO_SCENARIOS
  | None => None
  end.

(** [enterDemo(scenarioId?)]: the scenario found, or else the first one;
    nothing happens when there is neither. *)
Definition enterDemo (scenarioId : option string) (st : DemoState.t) : DemoState.t :=
  let scenario :=
    match findScenario scenarioId with
    | Some s => Some s
    | None => nth_error DEMO_SCENARIOS 0
    end in
  match scenario with
  | Some s => setIsDemo true (computeDiff s (setActiveScenario (Some s) st))
  | None => st
  end.

(** [exitDemo()]. *)
Definition exitDemo (st : DemoState.t) : DemoState.t :=
  setDiffResult None (setActiveScenario None (setIsDemo false st)).

(** [selectScenario(scenarioId)]: nothing happens when no scenario has
    the id. *)
Definition selectScenario (scenarioId : string) (st : DemoState.t) : DemoState.t :=
  match findScenario (Some scenarioId) with
  | Some s => computeDiff s (setActiveScenario (Some s) st)
  | None => st
  end.

(** What a consumer of the context can do, and a run of such calls. *)
Inductive DemoAction : Type :=
| EnterDemo (scenarioId : option string)
| ExitDemo
| SelectScenario (scenarioId : string)
| UpdateOptions (newOptions : PartialDiffOptions.t).

Definition perform (st : DemoState.t) (a : DemoAction) : DemoState.t :=
  match a with
  | EnterDemo scenarioId => enterDemo scenarioId st
  | ExitDemo => exitDemo st
  | SelectScenario scenarioId => selectScenario scenarioId st
  | UpdateOptions newOptions => updateOptions newOptions st
  end.

Definition performAll (actions : list DemoAction) (st : DemoState.t) : DemoState.t :=
  fold_left perform actions st.

(** ** app/demo/page.tsx: the effect of the [DemoPage] *)

(** A string or [null] used as a condition: [null] and the empty string
    are falsy. *)
Definition truthy (s : option string) : bool :=
  match s with
  | Some (String _ _) => true
  | Some EmptyString | None => false
  end.

(** [activeScenario?.id !== scenarioId] for a string [scenarioId]. *)
Definition activeIdDiffers (st : DemoState.t) (scenarioId : string) : bool :=
  match DemoState.activeScenario st with
  | Some s => negb (String.eqb (DemoScenario.id s) scenarioId)
  | None => true
  end.

(** The body of the [useEffect], for [searchParams.get('scenario')]. *)
Definition pageEffect (scenarioId : option string) (st : DemoState.t) : DemoState.t :=
  if negb (DemoState.isDemo st) then
    enterDemo (if truthy scenarioId then scenarioId else None) st
  else
    match scenarioId with
    | Some wanted =>
        if truthy scenarioId && activeIdDiffers st wanted
        then enterDemo scenarioId st
        else st
    | None => st
    end.

End Provider.

(** ** app/demo/components/DemoSidebar.tsx: groupedScenarios *)

Definition Category_eqb (a b : Category) : bool :=
  match a, b with
  | code, code | config, config | text, text => true
  | _, _ => false
  end.

(** A [Record<string, DemoScenario[]>] whose keys are categories: the
    entries in the order the keys were first set, which is the order
    [Object.entries] lists them in. *)
Definition Groups : Type := list (Category * list DemoScenario.t).

(** [acc[category]]. *)
Fixpoint group (acc : Groups) (category : Category) : option (list DemoScenario.t) :=
  match acc with
  | [] => None
  | (c, g) :: acc' => if Category_eqb c category then Some g else group acc' category
  end.

(** [if (!acc[category]) acc[category] = []; acc[category].push(scenario)]. *)
Fixpoint pushTo (acc : Groups) (category : Category) (scenario : DemoScenario.t)
    : Groups :=
  match acc with
  | [] => [(category, [scenario])]
  | (c, g) :: acc' =>
      if Category_eqb c category then (c, Js.push g scenario) :: acc'
      else (c, g) :: pushTo acc' category scenario
  end.

Definition groupedScenarios (scenarios : list DemoScenario.t) : Groups :=
  fold_left (fun acc scenario => pushTo acc (DemoScenario.category scenario) scenario)
            scenarios [].

(** ** app/demo/components/DemoDiffViewer.tsx: the rows of the split view *)

(** The variables of the [for] loop of [SplitView]; [null] is [None]. *)
Module Split.
Record state : Type := {
  i : nat;
  leftLines : list (option DiffLine);
  rightLines : list (option DiffLine)
}.
End Split.

Section SplitView.

Variable lines : list DiffLine.

(** One turn of the [for] loop with its increment: [None] when
    [i < lines.length] is false.  [thisLine] is the [line] of the source. *)
Definition split_body (st : Split.state) : option Split.state :=
  let i := Split.i st in
  let leftLines := Split.leftLines st in
  let rightLines := Split.rightLines st in
  match nth_error lines i with
  | None => None
  | Some thisLine =>
      match type thisLine with
      | Unchanged =>
          Some {| Split.i := S i;
                  Split.leftLines := Js.push leftLines (Some thisLine);
                  Split.rightLines := Js.push rightLines (Some thisLine) |}
      | Remove =>
          (* is the next line an add (a modification)? *)
          match nth_error lines (i + 1) with
          | Some nextLine =>
              if LineType_eqb (type nextLine) Add then
                Some {| Split.i := S (i + 1);
                        Split.leftLines := Js.push leftLines (Some thisLine);
                        Split.rightLines := Js.push rightLines (Some nextLine) |}
              else
                Some {| Split.i := S i;
                        Split.leftLines := Js.push leftLines (Some thisLine);
                        Split.rightLines := Js.push rightLines None |}
          | None =>
              Some {| Split.i := S i;
                      Split.leftLines := Js.push leftLines (Some thisLine);
                      Split.rightLines := Js.push rightLines None |}
          end
      | Add =>
          Some {| Split.i := S i;
                  Split.leftLines := Js.push leftLines None;
                  Split.rightLines := Js.push rightLines (Some thisLine) |}
      end
  end.

(** The loop, with a bound on the number of turns. *)
Fixpoint split_loop (fuel : nat) (st : Split.state) : option Split.state :=
  match split_body st with
  | None => Some st
  | Some st' =>
      match fuel with
      | O => None
      | S fuel' => split_loop fuel' st'
      end
  end.

Definition split_initial : Split.state :=
  {| Split.i := 0; Split.leftLines := []; Split.rightLines := [] |}.

(** The two columns [SplitView] renders; every turn advances [i], so
    [lines.length] turns are enough. *)
Definition splitColumns_opt : option (list (option DiffLine) * list (option DiffLine)) :=
  option_map (fun st => (Split.leftLines st, Split.rightLines st))
             (split_loop (List.length lines) split_initial).

Definition splitColumns : list (option DiffLine) * list (option DiffLine) :=
  match splitColumns_opt with
  | Some columns => columns
  | None => ([], [])
  end.

End SplitView.

(** [DiffLineComponent]: the line number shown for a cell,
    [side === 'left' ? line.lineNumbers.left : line.lineNumbers.right];
    a [null] cell shows none. *)
Inductive Side : Type := sideLeft | sideRight.

Definition cellLineNumber (cell : option DiffLine) (side : Side) : option nat :=
  match cell with
  | None => None
  | Some l =>
      match side with
      | sideLeft => left (lineNumbers l)
      | sideRight => right (lineNumbers l)
      end
  end.

(** ** Further vocabulary *)

(** The line numbers a list of lines carries, side by side. *)
Definition leftNumbers (ls : list DiffLine) : list nat :=
  flat_map (fun l => match left (lineNumbers l) with Some n => [n] | None => [] end) ls.

Definition rightNumbers (ls : list DiffLine) : list nat :=
  flat_map (fun l => match right (lineNumbers l) with Some n => [n] | None => [] end) ls.

(** A line number of a line is the 1-based position of the line's content
    in the input of its side. *)
Definition located (originalLines modifiedLines : list string) (l : DiffLine) : Prop :=
  (forall n, left (lineNumbers l) = Some n ->
             1 <= n /\ nth_error originalLines (n - 1) = Some (content l)) /\
  (forall n, right (lineNumbers l) = Some n ->
             1 <= n /\ nth_error modifiedLines (n - 1) = Some (content l)).

(** Runs of lines of one kind, numbered consecutively. *)
Fixpoint unchangedFrom (l r : nat) (xs : list string) : list DiffLine :=
  match xs with
  | [] => []
  | x :: xs' => unchangedLine x l r :: unchangedFrom (S l) (S r) xs'
  end.

Fixpoint addFrom (r : nat) (xs : list string) : list DiffLine :=
  match xs with
  | [] => []
  | x :: xs' => addLine x r :: addFrom (S r) xs'
  end.

Fixpoint removeFrom (l : nat) (xs : list string) : list DiffLine :=
  match xs with
  | [] => []
  | x :: xs' => removeLine x l :: removeFrom (S l) xs'
  end.

(** The counters are one ahead of the indices, the indices stay within
    the inputs, and the numbers written so far are [1..i] and [1..j]. *)
Definition numbering_inv (originalLines modifiedLines : list string)
    (st : Loop.state) : Prop :=
  Loop.leftLine st = S (Loop.i st) /\
  Loop.rightLine st = S (Loop.j st) /\
  Loop.i st <= List.length originalLines /\
  Loop.j st <= List.length modifiedLines /\
  leftNumbers (Loop.lines st) = seq 1 (Loop.i st) /\
  rightNumbers (Loop.lines st) = seq 1 (Loop.j st) /\
  Forall (located originalLines modifiedLines) (Loop.lines st).

(** The loop on [xs] against [xs] followed by [extra]: the common lines
    are kept one by one, then the extra lines are added. *)
Definition append_inv (xs extra : list string) (st : Loop.state) : Prop :=
  Loop.leftLine st = S (Loop.i st) /\
  Loop.rightLine st = S (Loop.j st) /\
  Loop.i st = Nat.min (Loop.j st) (List.length xs) /\
  Loop.j st <= List.length xs + List.length extra /\
  Loop.lines st =
    unchangedFrom 1 1 (firstn (Loop.i st) xs)
    ++ addFrom (S (List.length xs)) (firstn (Loop.j st - List.length xs) extra).

(** The loop on [xs] followed by [extra] against [xs]. *)
Definition truncate_inv (xs extra : list string) (st : Loop.state) : Prop :=
  Loop.leftLine st = S (Loop.i st) /\
  Loop.rightLine st = S (Loop.j st) /\
  Loop.j st = Nat.min (Loop.i st) (List.length xs) /\
  Loop.i st <= List.length xs + List.length extra /\
  Loop.lines st =
    unchangedFrom 1 1 (firstn (Loop.j st) xs)
    ++ removeFrom (S (List.length xs)) (firstn (Loop.i st - List.length xs) extra).

(** The diff of a scenario. *)
Definition resultOf (s : DemoScenario.t) : DiffResult :=
  generateDemoResult (DemoScenario.original s) (DemoScenario.modified s).

(** What holds of the provider's state at any time: the result shown is
    the diff of the active scenario (none when there is no active
    scenario), the active scenario is one of the scenarios, and demo mode
    has an active scenario. *)
Definition consistent (scenarios : list DemoScenario.t) (st : DemoState.t) : Prop :=
  DemoState.diffResult st = option_map resultOf (DemoState.activeScenario st) /\
  (forall s, DemoState.activeScenario st = Some s -> In s scenarios) /\
  (DemoState.isDemo st = true -> DemoState.activeScenario st <> None).

(** [{ ...p, ...q }] of two [Partial<DiffOptions>]. *)
Definition spreadPartial (p q : PartialDiffOptions.t) : PartialDiffOptions.t := {|
  PartialDiffOptions.granularity :=
    match PartialDiffOptions.granularity q with
    | Some v => Some v | None => PartialDiffOptions.granularity p end;
  PartialDiffOptions.ignoreWhitespace :=
    match PartialDiffOptions.ignoreWhitespace q with
    | Some v => Some v | None => PartialDiffOptions.ignoreWhitespace p end;
  PartialDiffOptions.ignoreCase :=
    match PartialDiffOptions.ignoreCase q with
    | Some v => Some v | None => PartialDiffOptions.ignoreCase p end;
  PartialDiffOptions.trimTrailingWhitespace :=
    match PartialDiffOptions.trimTrailingWhitespace q with
    | Some v => Some v | None => PartialDiffOptions.trimTrailingWhitespace p end;
  PartialDiffOptions.ignoreBlankLines :=
    match PartialDiffOptions.ignoreBlankLines q with
    | Some v => Some v | None => PartialDiffOptions.ignoreBlankLines p end
|}.

(** The diff expected when the lines [t] are inserted between the lines
    [p] and the lines [s], and the invariant of the loop that writes it:
    the lines written so far are its first [j] lines. *)
Definition insertedLines (p t s : list string) : list DiffLine :=
  unchangedFrom 1 1 p
  ++ addFrom (S (List.length p)) t
  ++ unchangedFrom (S (List.length p)) (S (List.length p + List.length t)) s.

Definition insert_inv (p t s : list string) (st : Loop.state) : Prop :=
  Loop.leftLine st = S (Loop.i st) /\
  Loop.rightLine st = S (Loop.j st) /\
  Loop.j st <= List.length p + List.length t + List.length s /\
  (Loop.j st <= List.length p -> Loop.i st = Loop.j st) /\
  (List.length p <= Loop.j st <= List.length p + List.length t ->
   Loop.i st = List.length p) /\
  (List.length p + List.length t <= Loop.j st ->
   Loop.i st = Loop.j st - List.length t) /\
  Loop.lines st = firstn (Loop.j st) (insertedLines p t s).

(** The same when the lines [t] between [p] and [s] are deleted. *)
Definition deletedLines (p t s : list string) : list DiffLine :=
  unchangedFrom 1 1 p
  ++ removeFrom (S (List.length p)) t
  ++ unchangedFrom (S (List.length p + List.length t)) (S (List.length p)) s.

Definition delete_inv (p t s : list string) (st : Loop.state) : Prop :=
  Loop.leftLine st = S (Loop.i st) /\
  Loop.rightLine st = S (Loop.j st) /\
  Loop.i st <= List.length p + List.length t + List.length s /\
  (Loop.i st <= List.length p -> Loop.j st = Loop.i st) /\
  (List.length p <= Loop.i st <= List.length p + List.length t ->
   Loop.j st = List.length p) /\
  (List.length p + List.length t <= Loop.i st ->
   Loop.j st = Loop.i st - List.length t) /\
  Loop.lines st = firstn (Loop.i st) (deletedLines p t s).

(** The diff expected of two texts without a common line: the lines are
    taken in pairs, a [Remove] followed by an [Add], and what is left of
    the longer text is removed or added. *)
Fixpoint modifiedFrom (l r : nat) (xs ys : list string) : list DiffLine :=
  match xs, ys with
  | x :: xs', y :: ys' =>
      removeLine x l :: addLine y r :: modifiedFrom (S l) (S r) xs' ys'
  | _, [] => removeFrom l xs
  | [], _ => addFrom r ys
  end.

(** The invariant of the loop that writes it: what is written, followed
    by what is expected of the lines still to read, is the whole. *)
Definition modify_inv (xs ys : list string) (st : Loop.state) : Prop :=
  Loop.leftLine st = S (Loop.i st) /\
  Loop.rightLine st = S (Loop.j st) /\
  Loop.lines st
    ++ modifiedFrom (S (Loop.i st)) (S (Loop.j st))
                    (skipn (Loop.i st) xs) (skipn (Loop.j st) ys)
  = modifiedFrom 1 1 xs ys.

(** A row of the split view that shows a line on at least one side. *)
Definition rowShown (row : option DiffLine * option DiffLine) : Prop :=
  fst row <> None \/ snd row <> None.

(** The cells of a column that hold a line. *)
Definition present (column : list (option DiffLine)) : list DiffLine :=
  flat_map (fun cell => match cell with Some l => [l] | None => [] end) column.

(** The invariant of the loop of [SplitView]: the columns are equally
    long, and the lines they hold are the left-consuming and the
    right-consuming ones among the first [i] lines. *)
Definition split_inv (lines : list DiffLine) (st : Split.state) : Prop :=
  List.length (Split.leftLines st) = List.length (Split.rightLines st) /\
  List.length (Split.leftLines st) <= Split.i st /\
  Split.i st <= List.length lines /\
  present (Split.leftLines st) = filter consumesLeft (firstn (Split.i st) lines) /\
  present (Split.rightLines st) = filter consumesRight (firstn (Split.i st) lines) /\
  Forall rowShown (combine (Split.leftLines st) (Split.rightLines st)).

(** A [Remove] line directly followed by an [Add] line, among the first
    [i] lines, is on one row of the split view. *)
Definition pairs_inv (lines : list DiffLine) (st : Split.state) : Prop :=
  forall k r a,
    k < Split.i st ->
    nth_error lines k = Some r -> type r = Remove ->
    nth_error lines (S k) = Some a -> type a = Add ->
    In (Some r, Some a) (combine (Split.leftLines st) (Split.rightLines st)).

(** The scenarios of a category, in their order. *)
Definition ofCategory (c : Category) (scenarios : list DemoScenario.t)
    : list DemoScenario.t :=
  filter (fun s => Category_eqb (DemoScenario.category s) c) scenarios.

(** * Properties *)

(** ** Lists and strings *)

Lemma firstn_snoc {A : Type} (l : list A) (n : nat) (x : A) :
  nth_error l n = Some x -> firstn (S n) l = firstn n l ++ [x].
Proof.
  revert n; induction l as [|a l IH]; intros [|n] H; simpl in *; try discriminate.
  - now inversion H.
  - f_equal. now apply IH.
Qed.

Lemma nth_error_lt {A : Type} (l : list A) (n : nat) (x : A) :
  nth_error l n = Some x -> n < List.length l.
Proof.
  intro H. apply nth_error_Some. congruence.
Qed.

Lemma firstn_past {A : Type} (l : list A) (n : nat) :
  nth_error l n = None -> firstn n l = l.
Proof.
  intro H. apply firstn_all2. now apply nth_error_None.
Qed.

Lemma split_nonempty (s : string) : Js.split s <> [].
Proof.
  induction s as [|c s IH]; simpl.
  - discriminate.
  - destruct (Ascii.eqb c Js.LF); [discriminate|].
    destruct (Js.split s); discriminate.
Qed.

Lemma split_length (s : string) : List.length (Js.split s) = S (countLF s).
Proof.
  induction s as [|c s IH]; simpl; [reflexivity|].
  destruct (Ascii.eqb c Js.LF); simpl.
  - now rewrite IH.
  - pose proof (split_nonempty s) as Hne.
    destruct (Js.split s) as [|seg segs]; [contradiction|exact IH].
Qed.

Lemma split_app_newline (s : string) :
  Js.split (s ++ Js.newline)%string = Js.split s ++ [""].
Proof.
  induction s as [|c s IH]; simpl; [reflexivity|].
  destruct (Ascii.eqb c Js.LF).
  - now rewrite IH.
  - rewrite IH. pose proof (split_nonempty s) as Hne.
    destruct (Js.split s) as [|seg segs]; [contradiction|reflexivity].
Qed.

(** ** The loop *)

Section LoopFacts.

Variables originalLines modifiedLines : list string.

Abbreviation body := (loop_body originalLines modifiedLines).
Abbreviation step := (turn originalLines modifiedLines).
Abbreviation left_over := (remaining originalLines modifiedLines).

(** Every turn of the loop is one of the four effects of [turn]. *)
Lemma loop_body_turn (st st' : Loop.state) : body st = Some st' -> step st st'.
Proof.
  destruct st as [ls l r i j]. unfold loop_body. simpl.
  destruct (nth_error originalLines i) as [origLine|] eqn:Ho;
    destruct (nth_error modifiedLines j) as [modLine|] eqn:Hm.
  - destruct (String.eqb origLine modLine) eqn:Heq.
    + apply String.eqb_eq in Heq. subst modLine.
      intro H. inversion H. subst. now apply turn_keep.
    + apply String.eqb_neq in Heq.
      assert (Hne : nth_error originalLines i <> nth_error modifiedLines j)
        by (rewrite Ho, Hm; congruence).
      match goal with |- context [if ?c then _ else _] => destruct c end.
      * intro H. inversion H. subst. now apply turn_modify.
      * match goal with |- context [if ?c then _ else _] => destruct c end;
          intro H; inversion H; subst.
        -- now apply turn_add.
        -- now apply turn_remove.
  - intro H. inversion H. subst. apply turn_remove; [assumption|].
    rewrite Ho, Hm. discriminate.
  - intro H. inversion H. subst. apply turn_add; [assumption|].
    rewrite Ho, Hm. discriminate.
  - discriminate.
Qed.

(** The loop stops exactly when both inputs are read to the end. *)
Lemma loop_body_None (st : Loop.state) :
  body st = None ->
  nth_error originalLines (Loop.i st) = None /\
  nth_error modifiedLines (Loop.j st) = None.
Proof.
  unfold loop_body.
  destruct (nth_error originalLines (Loop.i st));
    destruct (nth_error modifiedLines (Loop.j st)); try discriminate.
  - destruct (String.eqb s s0); [discriminate|].
    repeat match goal with |- context [if ?c then _ else _] => destruct c end;
      discriminate.
  - now split.
Qed.

Lemma turn_remaining (st st' : Loop.state) : step st st' -> left_over st' < left_over st.
Proof.
  intro H. unfold remaining.
  destruct H; simpl;
    repeat match goal with
           | H : nth_error _ _ = Some _ |- _ => apply nth_error_lt in H
           end; lia.
Qed.

(** Termination: a bound of [remaining st] turns is never reached. *)
Lemma while_enough_fuel (fuel : nat) :
  forall st, left_over st <= fuel ->
  exists st', while originalLines modifiedLines fuel st = Some st' /\ body st' = None.
Proof.
  induction fuel as [|fuel IH]; intros st Hfuel; simpl.
  - destruct (body st) as [st'|] eqn:Hb.
    + apply loop_body_turn, turn_remaining in Hb. lia.
    + now exists st.
  - destruct (body st) as [st'|] eqn:Hb.
    + apply IH. apply loop_body_turn, turn_remaining in Hb. lia.
    + now exists st.
Qed.

(** Loop invariants: a property of the variables that every turn keeps
    holds when the loop is left. *)
Lemma while_invariant (P : Loop.state -> Prop) :
  (forall s s', P s -> step s s' -> P s') ->
  forall fuel st st',
    P st -> while originalLines modifiedLines fuel st = Some st' -> P st'.
Proof.
  intros Hstep. induction fuel as [|fuel IH]; intros st st' HP; simpl.
  - destruct (body st); [discriminate|]. intro H. now inversion H; subst.
  - destruct (body st) as [s1|] eqn:Hb.
    + apply IH. eapply Hstep; [exact HP|]. now apply loop_body_turn.
    + intro H. now inversion H; subst.
Qed.

(** The loop returns, with both inputs read to the end and every
    invariant established. *)
Lemma diffLoop_returns (P : Loop.state -> Prop) :
  P initial ->
  (forall s s', P s -> step s s' -> P s') ->
  exists st,
    diffLoop originalLines modifiedLines = Some st /\ P st /\
    nth_error originalLines (Loop.i st) = None /\
    nth_error modifiedLines (Loop.j st) = None.
Proof.
  intros H0 Hstep. unfold diffLoop.
  destruct (while_enough_fuel (turns originalLines modifiedLines) initial)
    as [st [Hrun Hend]].
  { unfold remaining, turns. simpl. lia. }
  exists st. split; [exact Hrun|]. split.
  - eapply while_invariant; eauto.
  - now apply loop_body_None.
Qed.

End LoopFacts.

(** [generateDiffLines] returns: the bound on the turns is not reached. *)
Lemma generateDiffLines_returns (original modified : string) :
  generateDiffLines_opt original modified = Some (generateDiffLines original modified).
Proof.
  unfold generateDiffLines, generateDiffLines_opt.
  destruct (diffLoop_returns (Js.split original) (Js.split modified) (fun _ => True))
    as [st [Hrun _]]; [exact I|trivial|].
  now rewrite Hrun.
Qed.

(** The way the properties of the result are proved: by a loop invariant. *)
Lemma generateDiffLines_invariant (P : Loop.state -> Prop) (original modified : string) :
  P initial ->
  (forall s s', P s -> turn (Js.split original) (Js.split modified) s s' -> P s') ->
  exists st,
    generateDiffLines original modified = Loop.lines st /\ P st /\
    nth_error (Js.split original) (Loop.i st) = None /\
    nth_error (Js.split modified) (Loop.j st) = None.
Proof.
  intros H0 Hstep.
  destruct (diffLoop_returns (Js.split original) (Js.split modified) P H0 Hstep)
    as [st [Hrun [HP Hend]]].
  exists st. split; [|now split].
  unfold generateDiffLines, generateDiffLines_opt. now rewrite Hrun.
Qed.

(** ** Counting lines *)

Lemma fold_countLine (ls : list DiffLine) :
  forall acc,
    Acc.added (fold_left countLine ls acc) = Acc.added acc + countType Add ls /\
    Acc.removed (fold_left countLine ls acc) = Acc.removed acc + countType Remove ls /\
    Acc.unchanged (fold_left countLine ls acc) = Acc.unchanged acc + countType Unchanged ls.
Proof.
  unfold countType, hasType.
  induction ls as [|l ls IH]; intro acc; simpl.
  - repeat split; lia.
  - destruct (IH (countLine acc l)) as [Ha [Hr Hu]].
    rewrite Ha, Hr, Hu. unfold countLine.
    destruct (type l); simpl; repeat split; lia.
Qed.

Lemma calculateDiffStats_counts (ls : list DiffLine) (n m : nat) :
  calculateDiffStats ls n m =
  {| added := countType Add ls; removed := countType Remove ls;
     unchanged := countType Unchanged ls; totalLeft := n; totalRight := m |}.
Proof.
  unfold calculateDiffStats.
  destruct (fold_countLine ls {| Acc.added := 0; Acc.removed := 0; Acc.unchanged := 0 |})
    as [Ha [Hr Hu]].
  rewrite Ha, Hr, Hu. reflexivity.
Qed.

Lemma leftContents_length (ls : list DiffLine) :
  List.length (leftContents ls) = countType Remove ls + countType Unchanged ls.
Proof.
  unfold leftContents, countType, hasType, consumesLeft. rewrite length_map.
  induction ls as [|l ls IH]; simpl; [reflexivity|].
  destruct (type l); simpl; lia.
Qed.

Lemma rightContents_length (ls : list DiffLine) :
  List.length (rightContents ls) = countType Add ls + countType Unchanged ls.
Proof.
  unfold rightContents, countType, hasType, consumesRight. rewrite length_map.
  induction ls as [|l ls IH]; simpl; [reflexivity|].
  destruct (type l); simpl; lia.
Qed.

Lemma keptContents_length (ls : list DiffLine) :
  List.length (keptContents ls) = countType Unchanged ls.
Proof.
  unfold keptContents, countType. now rewrite length_map.
Qed.

Lemma leftContents_app (ls ls' : list DiffLine) :
  leftContents (ls ++ ls') = leftContents ls ++ leftContents ls'.
Proof.
  unfold leftContents. now rewrite filter_app, map_app.
Qed.

Lemma rightContents_app (ls ls' : list DiffLine) :
  rightContents (ls ++ ls') = rightContents ls ++ rightContents ls'.
Proof.
  unfold rightContents. now rewrite filter_app, map_app.
Qed.

(** ** Common subsequences *)

Lemma Subseq_tail {A : Type} (x : A) (zs xs : list A) :
  Subseq (x :: zs) xs -> Subseq zs xs.
Proof.
  intro H. remember (x :: zs) as l eqn:El. revert x zs El.
  induction H as [|y l xs H IH|y l xs H IH]; intros x zs El.
  - discriminate.
  - apply Subseq_skip. now apply (IH x).
  - inversion El; subst. now apply Subseq_skip.
Qed.

Lemma Subseq_nil_inv {A : Type} (zs : list A) : Subseq zs [] -> zs = [].
Proof.
  intro H. now inversion H.
Qed.

(** The kept lines are among the left-consuming lines, and among the
    right-consuming lines, in the same order. *)
Lemma kept_Subseq_left (ls : list DiffLine) : Subseq (keptContents ls) (leftContents ls).
Proof.
  unfold keptContents, leftContents, hasType, consumesLeft.
  induction ls as [|l ls IH]; simpl; [constructor|].
  destruct (type l); simpl; try assumption; now constructor.
Qed.

Lemma kept_Subseq_right (ls : list DiffLine) : Subseq (keptContents ls) (rightContents ls).
Proof.
  unfold keptContents, rightContents, hasType, consumesRight.
  induction ls as [|l ls IH]; simpl; [constructor|].
  destruct (type l); simpl; try assumption; now constructor.
Qed.

Lemma LCSLength_cons (x y : string) (xs ys : list string) :
  LCSLength (x :: xs) (y :: ys) =
  if String.eqb x y then S (LCSLength xs ys)
  else Nat.max (LCSLength xs (y :: ys)) (LCSLength (x :: xs) ys).
Proof.
  reflexivity.
Qed.

Lemma LCSLength_nil_r (xs : list string) : LCSLength xs [] = 0.
Proof.
  now destruct xs.
Qed.

(** No common subsequence is longer than [LCSLength]. *)
Lemma LCSLength_upper (xs : list string) :
  forall ys zs, Subseq zs xs -> Subseq zs ys -> List.length zs <= LCSLength xs ys.
Proof.
  induction xs as [|x xs IHx]; intros ys zs Hx Hy.
  - apply Subseq_nil_inv in Hx. subst. simpl. lia.
  - revert zs Hx Hy. induction ys as [|y ys IHy]; intros zs Hx Hy.
    + apply Subseq_nil_inv in Hy. subst. simpl. lia.
    + rewrite LCSLength_cons. destruct (String.eqb x y) eqn:Heq.
      * apply String.eqb_eq in Heq. subst y.
        inversion Hx as [|? ? ? Hx'|? zs' ? Hx']; subst.
        -- inversion Hy as [|? ? ? Hy'|? zs' ? Hy']; subst.
           ++ specialize (IHx ys zs Hx' Hy'). lia.
           ++ apply Subseq_tail in Hx'.
              specialize (IHx ys zs' Hx' Hy'). simpl. lia.
        -- assert (Hy' : Subseq zs' ys).
           { inversion Hy as [|? ? ? H1|? ? ? H1]; subst;
               [now apply Subseq_tail in H1|assumption]. }
           specialize (IHx ys zs' Hx' Hy'). simpl. lia.
      * apply String.eqb_neq in Heq.
        inversion Hx as [|? ? ? Hx'|? zs' ? Hx']; subst.
        -- specialize (IHx (y :: ys) zs Hx' Hy). lia.
        -- inversion Hy as [|? ? ? Hy'|? ? ? Hy']; subst; [|congruence].
           specialize (IHy (x :: zs') Hx Hy'). lia.
Qed.

(** [LCSLength] is the length of a common subsequence. *)
Lemma LCSLength_reached (xs : list string) :
  forall ys, exists zs,
    Subseq zs xs /\ Subseq zs ys /\ List.length zs = LCSLength xs ys.
Proof.
  assert (Hnil : forall l : list string, Subseq [] l)
    by (induction l; now constructor).
  induction xs as [|x xs IHx]; intro ys.
  - exists []. repeat split; auto.
  - induction ys as [|y ys IHy].
    + exists []. repeat split; auto.
    + rewrite LCSLength_cons. destruct (String.eqb x y) eqn:Heq.
      * apply String.eqb_eq in Heq. subst y.
        destruct (IHx ys) as [zs [H1 [H2 H3]]].
        exists (x :: zs). repeat split; try now constructor.
        simpl. now rewrite H3.
      * destruct (Nat.max_spec (LCSLength xs (y :: ys)) (LCSLength (x :: xs) ys))
          as [[_ Hmax]|[_ Hmax]]; rewrite Hmax.
        -- destruct IHy as [zs [H1 [H2 H3]]].
           exists zs. repeat split; try assumption. now constructor.
        -- destruct (IHx (y :: ys)) as [zs [H1 [H2 H3]]].
           exists zs. repeat split; try assumption. now constructor.
Qed.

(** ** What the loop reads and what it writes *)

(** The invariant of the loop: the left-consuming lines written so far are
    the first [i] original lines, the right-consuming lines the first [j]
    modified lines. *)
Lemma turn_contents (originalLines modifiedLines : list string) (s s' : Loop.state) :
  leftContents (Loop.lines s) = firstn (Loop.i s) originalLines /\
  rightContents (Loop.lines s) = firstn (Loop.j s) modifiedLines ->
  turn originalLines modifiedLines s s' ->
  leftContents (Loop.lines s') = firstn (Loop.i s') originalLines /\
  rightContents (Loop.lines s') = firstn (Loop.j s') modifiedLines.
Proof.
  intros [HL HR] Hturn.
  destruct Hturn; cbn [Loop.lines Loop.i Loop.j] in *;
    repeat rewrite leftContents_app; repeat rewrite rightContents_app;
    rewrite HL, HR;
    repeat match goal with
           | H : nth_error _ _ = Some _ |- _ => rewrite (firstn_snoc _ _ _ H); clear H
           end;
    simpl; now rewrite ?app_nil_r.
Qed.

Lemma generateDiffLines_contents (original modified : string) :
  leftContents (generateDiffLines original modified) = Js.split original /\
  rightContents (generateDiffLines original modified) = Js.split modified.
Proof.
  destruct (generateDiffLines_invariant
              (fun st =>
                 leftContents (Loop.lines st) = firstn (Loop.i st) (Js.split original) /\
                 rightContents (Loop.lines st) = firstn (Loop.j st) (Js.split modified))
              original modified) as [st [Hlines [[HL HR] [Hi Hj]]]].
  - now split.
  - intros s s'. apply turn_contents.
  - rewrite Hlines, HL, HR. split; now apply firstn_past.
Qed.

(** The three counts of the result against the lengths of the inputs. *)
Lemma generateDiffLines_counts (original modified : string) :
  countType Remove (generateDiffLines original modified)
  + countType Unchanged (generateDiffLines original modified)
  = List.length (Js.split original) /\
  countType Add (generateDiffLines original modified)
  + countType Unchanged (generateDiffLines original modified)
  = List.length (Js.split modified).
Proof.
  destruct (generateDiffLines_contents original modified) as [HL HR].
  rewrite <- leftContents_length, <- rightContents_length. now rewrite HL, HR.
Qed.

(** ** Further invariants of the loop *)

(** Every pushed line has the line numbers of its kind. *)
Lemma generateDiffLines_numbered (original modified : string) :
  Forall numbered (generateDiffLines original modified).
Proof.
  destruct (generateDiffLines_invariant
              (fun st => Forall numbered (Loop.lines st)) original modified)
    as [st [Hlines [HP _]]].
  - constructor.
  - intros s s' HP Hturn.
    destruct Hturn; cbn [Loop.lines] in *;
      repeat (apply Forall_app; split); try assumption;
      repeat constructor; discriminate.
  - now rewrite Hlines.
Qed.

(** No pushed line has the [changes] property. *)
Lemma generateDiffLines_no_changes (original modified : string) :
  Forall (fun l => changes l = None) (generateDiffLines original modified).
Proof.
  destruct (generateDiffLines_invariant
              (fun st => Forall (fun l => changes l = None) (Loop.lines st))
              original modified)
    as [st [Hlines [HP _]]].
  - constructor.
  - intros s s' HP Hturn.
    destruct Hturn; cbn [Loop.lines] in *;
      repeat (apply Forall_app; split); try assumption;
      repeat constructor.
  - now rewrite Hlines.
Qed.

(** A text against itself: the two indices advance together and every
    line is kept. *)
Lemma generateDiffLines_same (s : string) :
  Forall (fun l => type l = Unchanged) (generateDiffLines s s).
Proof.
  destruct (generateDiffLines_invariant
              (fun st => Loop.i st = Loop.j st /\
                         Forall (fun l => type l = Unchanged) (Loop.lines st))
              s s)
    as [st [Hlines [[_ HP] _]]].
  - split; [reflexivity|constructor].
  - intros st st' [Hij HP] Hturn.
    destruct Hturn; cbn [Loop.lines Loop.i Loop.j] in *; subst;
      try congruence.
    split; [reflexivity|].
    apply Forall_app; split; [assumption|]. now repeat constructor.
  - now rewrite Hlines.
Qed.

Lemma all_Unchanged_counts (ls : list DiffLine) :
  Forall (fun l => type l = Unchanged) ls ->
  countType Add ls = 0 /\ countType Remove ls = 0 /\
  countType Unchanged ls = List.length ls.
Proof.
  unfold countType, hasType.
  induction 1 as [|l ls Hl _ IH]; simpl; [now repeat split|].
  rewrite Hl. simpl. destruct IH as [Ha [Hr Hu]]. now rewrite Hu.
Qed.

(** ** The segments of split and the line tokens of the specification *)

Lemma concat_cons (sep x y : string) (rest : list string) :
  String.concat sep (x :: y :: rest) = (x ++ sep ++ String.concat sep (y :: rest))%string.
Proof.
  reflexivity.
Qed.

(** Joining the segments of [split] with line feeds gives the string
    back. *)
Lemma joinLines_split (s : string) : joinLines (Js.split s) = s.
Proof.
  unfold joinLines.
  induction s as [|c s IH]; [reflexivity|].
  pose proof (split_nonempty s) as Hne.
  cbn [Js.split]. destruct (Ascii.eqb c Js.LF) eqn:Hc.
  - apply Ascii.eqb_eq in Hc. subst c.
    destruct (Js.split s) as [|seg segs]; [contradiction|].
    rewrite concat_cons, IH. reflexivity.
  - destruct (Js.split s) as [|seg segs]; [contradiction|].
    destruct segs as [|seg' segs].
    + simpl in *. now rewrite IH.
    + rewrite concat_cons. rewrite concat_cons in IH. rewrite <- IH. reflexivity.
Qed.

(** No segment of [split] holds a line feed. *)
Lemma split_no_LF (s : string) : Forall (fun seg => countLF seg = 0) (Js.split s).
Proof.
  induction s as [|c s IH]; simpl.
  - now repeat constructor.
  - destruct (Ascii.eqb c Js.LF) eqn:Hc.
    + now constructor.
    + destruct (Js.split s) as [|seg segs].
      * apply Forall_cons; [|apply Forall_nil]. simpl. now rewrite Hc.
      * inversion IH as [|? ? Hseg Hsegs]; subst.
        apply Forall_cons; [|assumption]. simpl. now rewrite Hc.
Qed.

Lemma specTokenize_nonempty (s : string) : specTokenize s <> [].
Proof.
  destruct s as [|c s]; simpl; [discriminate|].
  destruct (Ascii.eqb c Js.LF).
  - destruct s; discriminate.
  - destruct (specTokenize s); discriminate.
Qed.

(** [split] gives the line tokens of the specification, and after them
    one empty segment when the text ends with a line terminator. *)
Lemma split_specTokenize (s : string) :
  Js.split s = specTokenize s ++ trailingSegment s.
Proof.
  unfold trailingSegment.
  induction s as [|c s IH]; [reflexivity|].
  cbn [Js.split specTokenize endsWithLF].
  destruct (Ascii.eqb c Js.LF) eqn:Hc.
  - destruct s as [|c' s']; [reflexivity|].
    rewrite IH. reflexivity.
  - destruct s as [|c' s']; [reflexivity|].
    rewrite IH.
    pose proof (specTokenize_nonempty (String c' s')) as Hne.
    destruct (specTokenize (String c' s')) as [|seg segs]; [contradiction|].
    reflexivity.
Qed.

(** ** The checked properties *)

(** C1, as the code has it.  The number of [Add] plus [Remove] lines of
    [generateDiffLines] is [leftLength + rightLength - 2 * unchangedCount];
    the [Unchanged] lines are a common subsequence of the two line
    sequences, so their number is at most [LCSLength] and the number of
    [Add] plus [Remove] lines is at least
    [leftLength + rightLength - 2 * LCSLength].  The script is a valid edit
    script, not always a shortest one. *)
Theorem C1_edit_count_bounded_by_lcs (original modified : string) :
  let ls := generateDiffLines original modified in
  let leftLength := List.length (Js.split original) in
  let rightLength := List.length (Js.split modified) in
  let lcs := LCSLength (Js.split original) (Js.split modified) in
  countType Add ls + countType Remove ls + 2 * countType Unchanged ls
    = leftLength + rightLength /\
  Subseq (keptContents ls) (Js.split original) /\
  Subseq (keptContents ls) (Js.split modified) /\
  List.length (keptContents ls) = countType Unchanged ls /\
  countType Unchanged ls <= lcs /\
  leftLength + rightLength - 2 * lcs <= countType Add ls + countType Remove ls.
Proof.
  intros ls leftLength rightLength lcs.
  destruct (generateDiffLines_counts original modified) as [HL HR].
  destruct (generateDiffLines_contents original modified) as [HcL HcR].
  assert (HsL : Subseq (keptContents ls) (Js.split original))
    by (rewrite <- HcL; apply kept_Subseq_left).
  assert (HsR : Subseq (keptContents ls) (Js.split modified))
    by (rewrite <- HcR; apply kept_Subseq_right).
  assert (Hkept : countType Unchanged ls <= lcs).
  { subst lcs. rewrite <- keptContents_length. now apply LCSLength_upper. }
  repeat split; try assumption.
  - subst ls leftLength rightLength. lia.
  - apply keptContents_length.
  - subst ls leftLength rightLength. lia.
Qed.

(** C1, counterexample.  For the left lines A, X, B, Z and the right lines
    B, Z, A the engine writes Add B, Add Z, Unchanged A, Remove X, Remove B,
    Remove Z: five changed lines, where the longest common subsequence
    (B, Z) has length 2 and [4 + 3 - 2 * 2 = 3]. *)
Lemma C1_not_minimal :
  let original := joinLines ["A"; "X"; "B"; "Z"] in
  let modified := joinLines ["B"; "Z"; "A"] in
  let ls := generateDiffLines original modified in
  map type ls = [Add; Add; Unchanged; Remove; Remove; Remove] /\
  LCSLength (Js.split original) (Js.split modified) = 2 /\
  countType Add ls + countType Remove ls
    <> List.length (Js.split original) + List.length (Js.split modified)
       - 2 * LCSLength (Js.split original) (Js.split modified).
Proof.
  vm_compute. repeat split; discriminate.
Qed.

(** C2, as the code has it.  The contents of the left-consuming lines
    ([Unchanged], [Remove]) of [generateDiffLines], in output order, are
    the segments of the left input between its line feeds: joined by line
    feeds they are the left input again, none of them holds a line feed,
    and they are the line tokens of the specification followed by one
    empty segment when the input ends with a line terminator.  Likewise
    the right-consuming lines ([Unchanged], [Add]) and the right input. *)
Theorem C2_round_trip (original modified : string) :
  let ls := generateDiffLines original modified in
  leftContents ls = Js.split original /\
  rightContents ls = Js.split modified /\
  joinLines (leftContents ls) = original /\
  joinLines (rightContents ls) = modified /\
  Forall (fun seg => countLF seg = 0) (leftContents ls) /\
  Forall (fun seg => countLF seg = 0) (rightContents ls) /\
  leftContents ls = specTokenize original ++ trailingSegment original /\
  rightContents ls = specTokenize modified ++ trailingSegment modified.
Proof.
  cbn zeta.
  destruct (generateDiffLines_contents original modified) as [HL HR].
  rewrite HL, HR.
  repeat split;
    auto using joinLines_split, split_no_LF, split_specTokenize.
Qed.

(** C2, counterexample.  For the left input ["a\n"], whose one line token
    is ["a"], the left-consuming lines have the contents ["a"] and [""]. *)
Lemma C2_contents_not_the_line_tokens :
  let original := ("a" ++ Js.newline)%string in
  let ls := generateDiffLines original "a" in
  specTokenize original = ["a"] /\
  leftContents ls = ["a"; ""] /\
  leftContents ls <> specTokenize original.
Proof.
  vm_compute. repeat split. discriminate.
Qed.

(** C3.  The stats of [generateDemoResult] satisfy
    [totalLeft = removed + unchanged] and [totalRight = added + unchanged]. *)
Theorem C3_coverage (original modified : string) :
  let s := stats (generateDemoResult original modified) in
  totalLeft s = removed s + unchanged s /\
  totalRight s = added s + unchanged s.
Proof.
  unfold generateDemoResult. cbn [stats].
  rewrite calculateDiffStats_counts. cbn [totalLeft totalRight added removed unchanged].
  destruct (generateDiffLines_counts original modified) as [HL HR].
  now rewrite HL, HR.
Qed.

(** C4, as the code has it.  The engine tokenizes with [split('\n')] and
    keeps the empty segment after a final line feed: ["a\n"] gives the two
    tokens ["a"] and [""]; for every input ending in a line feed the token
    list ends with that empty segment, the engine reads it as a left line
    and [totalLeft] counts it. *)
Theorem C4_trailing_segment_kept (s modified : string) :
  Js.split ("a" ++ Js.newline)%string = ["a"; ""] /\
  Js.split (s ++ Js.newline)%string = Js.split s ++ [""] /\
  leftContents (generateDiffLines (s ++ Js.newline)%string modified)
    = Js.split s ++ [""] /\
  totalLeft (stats (generateDemoResult (s ++ Js.newline)%string modified))
    = S (lineCount s).
Proof.
  split; [reflexivity|]. split; [apply split_app_newline|]. split.
  - destruct (generateDiffLines_contents (s ++ Js.newline)%string modified) as [HL _].
    now rewrite HL, split_app_newline.
  - unfold generateDemoResult, calculateDiffStats, lineCount. cbn [stats totalLeft].
    rewrite split_app_newline, length_app. simpl. lia.
Qed.

(** C4, counterexample.  Tokenizing ["a\n"] does not give the single token
    ["a"], and the engine counts two left lines for it. *)
Lemma C4_trailing_segment_not_dropped :
  Js.split ("a" ++ Js.newline)%string <> ["a"] /\
  totalLeft (stats (generateDemoResult ("a" ++ Js.newline)%string "a")) <> 1.
Proof.
  split; vm_compute; discriminate.
Qed.

(** C5, as the code has it.  The diff of a text [s] against itself has no
    added and no removed line, and as many unchanged lines as [s] has
    segments between line feeds: the number of its line feeds plus one,
    which is the [lineCount] of the specification for a text that does not
    end with a line terminator and one more for a text that does.  This
    holds for every [s], empty or not.  For the empty string the result is
    one [Unchanged] empty line. *)
Theorem C5_identity (s : string) :
  let r := generateDemoResult s s in
  added (stats r) = 0 /\ removed (stats r) = 0 /\
  unchanged (stats r) = lineCount s /\
  lineCount s = S (countLF s) /\
  lineCount s = specLineCount s + (if endsWithLF s then 1 else 0) /\
  lines (generateDemoResult "" "") =
    [{| type := Unchanged; content := "";
        lineNumbers := {| left := Some 1; right := Some 1 |}; changes := None |}].
Proof.
  unfold generateDemoResult, lineCount, specLineCount. cbn [stats lines].
  rewrite calculateDiffStats_counts. cbn [added removed unchanged].
  destruct (all_Unchanged_counts _ (generateDiffLines_same s)) as [Ha [Hr _]].
  destruct (generateDiffLines_counts s s) as [HL _].
  rewrite Ha, Hr in *. simpl in HL.
  repeat split; try assumption.
  - apply split_length.
  - rewrite split_specTokenize at 1. rewrite length_app. unfold trailingSegment.
    now destruct (endsWithLF s).
Qed.

(** C5, counterexample.  The non-empty text ["a\n"] has one line, and its
    diff against itself has two unchanged lines. *)
Lemma C5_unchanged_not_the_line_count :
  let s := ("a" ++ Js.newline)%string in
  s <> "" /\
  specLineCount s = 1 /\
  unchanged (stats (generateDemoResult s s)) = 2 /\
  unchanged (stats (generateDemoResult s s)) <> specLineCount s.
Proof.
  vm_compute. repeat split; discriminate.
Qed.

(** C6, as the code has it.  For left ["cat"] and right ["car"] the engine
    writes a [Remove] line with content ["cat"] immediately followed by an
    [Add] line with content ["car"], and nothing else; neither line has
    inline changes, and no line the engine writes ever has. *)
Theorem C6_modification_without_inline (original modified : string) :
  generateDiffLines "cat" "car" =
    [{| type := Remove; content := "cat";
        lineNumbers := {| left := Some 1; right := None |}; changes := None |};
     {| type := Add; content := "car";
        lineNumbers := {| left := None; right := Some 1 |}; changes := None |}] /\
  Forall (fun l => changes l = None) (generateDiffLines original modified).
Proof.
  split; [reflexivity|apply generateDiffLines_no_changes].
Qed.

(** C6, counterexample.  The result for ["cat"] and ["car"] holds no
    [Remove] line ["cat"] followed by an [Add] line ["car"] that both carry
    inline changes. *)
Lemma C6_no_inline_changes :
  ~ exists pre r a post,
      generateDiffLines "cat" "car" = pre ++ r :: a :: post /\
      type r = Remove /\ content r = "cat" /\
      type a = Add /\ content a = "car" /\
      changes r <> None /\ changes a <> None.
Proof.
  intros (pre & r & a & post & Hls & _ & _ & _ & _ & Hr & _).
  apply Hr.
  pose proof (generateDiffLines_no_changes "cat" "car") as Hall.
  rewrite Forall_forall in Hall. apply Hall.
  rewrite Hls. apply in_elt.
Qed.

(** C7, as the code has it.  The engine takes no options: whatever the
    options of the provider are, [computeDiff] stores
    [generateDemoResult(original, modified)] and leaves the options as they
    were; lines are compared with [===], so for left ["Hello"] and right
    ["hello"] the result is a [Remove] line ["Hello"] followed by an [Add]
    line ["hello"]. *)
Theorem C7_case_sensitive (st : DemoState.t) :
  let st' := computeDiff (scenarioOf "Hello" "hello") st in
  DemoState.options st' = DemoState.options st /\
  DemoState.diffResult st' = Some (generateDemoResult "Hello" "hello") /\
  generateDemoResult "Hello" "hello" =
    {| lines :=
         [{| type := Remove; content := "Hello";
             lineNumbers := {| left := Some 1; right := None |}; changes := None |};
          {| type := Add; content := "hello";
             lineNumbers := {| left := None; right := Some 1 |}; changes := None |}];
       stats := {| added := 1; removed := 1; unchanged := 0;
                   totalLeft := 1; totalRight := 1 |} |}.
Proof.
  repeat split.
Qed.

(** C7, counterexample.  With [ignoreCase] set to [true] in the provider,
    the result for left ["Hello"] and right ["hello"] is not a single
    [Unchanged] line ["Hello"]. *)
Lemma C7_ignoreCase_has_no_effect :
  let st := computeDiff (scenarioOf "Hello" "hello")
              (updateOptions onlyIgnoreCase DemoState_initial) in
  ignoreCase (DemoState.options st) = true /\
  ~ exists l,
      option_map lines (DemoState.diffResult st) = Some [l] /\
      type l = Unchanged /\ content l = "Hello".
Proof.
  split; [reflexivity|].
  intros (l & H & _). vm_compute in H. discriminate.
Qed.

(** C8, as the code has it.  [calculateDiffStats] counts the lines by kind
    and copies [totalLeft] and [totalRight] from the two line counts it is
    given; the two equations [totalLeft = removed + unchanged] and
    [totalRight = added + unchanged] hold exactly when the given counts are
    the numbers of left-consuming and right-consuming lines. *)
Theorem C8_totals_are_the_given_counts
    (ls : list DiffLine) (originalLineCount modifiedLineCount : nat) :
  let s := calculateDiffStats ls originalLineCount modifiedLineCount in
  added s = countType Add ls /\
  removed s = countType Remove ls /\
  unchanged s = countType Unchanged ls /\
  totalLeft s = originalLineCount /\
  totalRight s = modifiedLineCount /\
  ((totalLeft s = removed s + unchanged s /\ totalRight s = added s + unchanged s)
   <-> (originalLineCount = List.length (leftContents ls) /\
        modifiedLineCount = List.length (rightContents ls))).
Proof.
  cbn zeta. rewrite calculateDiffStats_counts.
  cbn [added removed unchanged totalLeft totalRight].
  rewrite leftContents_length, rightContents_length.
  repeat split; tauto.
Qed.

(** C8, counterexample.  For the empty list of lines and the line counts 1
    and 1 the stats have [totalLeft = 1] and [removed + unchanged = 0]. *)
Lemma C8_totals_not_derived :
  let s := calculateDiffStats [] 1 1 in
  ~ (totalLeft s = removed s + unchanged s /\
     totalRight s = added s + unchanged s).
Proof.
  vm_compute. intros [H _]. discriminate.
Qed.

(** C9.  In the list [generateDiffLines] returns, an [Unchanged] line has
    both line numbers, an [Add] line only the right one and a [Remove] line
    only the left one. *)
Theorem C9_line_numbers_populated (original modified : string) :
  Forall numbered (generateDiffLines original modified).
Proof.
  exact (generateDiffLines_numbered original modified).
Qed.

(** C10.  [generateDiffLines] returns, and the list it returns is not
    empty, also for two empty strings. *)
Theorem C10_result_nonempty (original modified : string) :
  (exists l ls, generateDiffLines_opt original modified = Some (l :: ls)) /\
  generateDiffLines original modified <> [] /\
  generateDiffLines "" "" <> [].
Proof.
  assert (Hne : forall a b, generateDiffLines a b <> []).
  { intros a b Hnil.
    destruct (generateDiffLines_contents a b) as [HL _].
    rewrite Hnil in HL. symmetry in HL. now apply split_nonempty in HL. }
  split; [|split; apply Hne].
  rewrite generateDiffLines_returns.
  specialize (Hne original modified).
  destruct (generateDiffLines original modified) as [|l ls]; [contradiction|].
  now exists l, ls.
Qed.

(** ** The cases of demoData.test.ts *)

Example test_identical_strings :
  map type (generateDiffLines "hello" "hello") = [Unchanged].
Proof. reflexivity. Qed.

Example test_added_lines :
  generateDiffLines "original" (joinLines ["original"; "new line"]) =
    [unchangedLine "original" 1 1; addLine "new line" 2].
Proof. reflexivity. Qed.

Example test_removed_lines :
  generateDiffLines (joinLines ["old line"; "original"]) "original" =
    [removeLine "old line" 1; unchangedLine "original" 2 1].
Proof. reflexivity. Qed.

Example test_multi_line_changes :
  generateDiffLines (joinLines ["line1"; "line2"; "line3"])
                    (joinLines ["line1"; "modified"; "line3"]) =
    [unchangedLine "line1" 1 1; removeLine "line2" 2; addLine "modified" 2;
     unchangedLine "line3" 3 3].
Proof. reflexivity. Qed.

Example test_calculateDiffStats :
  calculateDiffStats [unchangedLine "a" 1 1; addLine "b" 2; removeLine "c" 2] 2 2 =
    {| added := 1; removed := 1; unchanged := 1; totalLeft := 2; totalRight := 2 |}.
Proof. reflexivity. Qed.

(** * Further properties of the code *)

(** ** generateDiffLines: line numbers *)

Lemma leftNumbers_app (ls ls' : list DiffLine) :
  leftNumbers (ls ++ ls') = leftNumbers ls ++ leftNumbers ls'.
Proof.
  unfold leftNumbers. apply flat_map_app.
Qed.

Lemma rightNumbers_app (ls ls' : list DiffLine) :
  rightNumbers (ls ++ ls') = rightNumbers ls ++ rightNumbers ls'.
Proof.
  unfold rightNumbers. apply flat_map_app.
Qed.

Lemma seq_1_snoc (n : nat) : seq 1 (S n) = seq 1 n ++ [S n].
Proof.
  now rewrite seq_S.
Qed.

Lemma located_addLine (ol ml : list string) (m : string) (j : nat) :
  nth_error ml j = Some m -> located ol ml (addLine m (S j)).
Proof.
  intro H. split; intros n Hn; simpl in Hn; [discriminate|].
  inversion Hn; subst. simpl. rewrite Nat.sub_0_r. split; [lia|assumption].
Qed.

Lemma located_removeLine (ol ml : list string) (o : string) (i : nat) :
  nth_error ol i = Some o -> located ol ml (removeLine o (S i)).
Proof.
  intro H. split; intros n Hn; simpl in Hn; [|discriminate].
  inversion Hn; subst. simpl. rewrite Nat.sub_0_r. split; [lia|assumption].
Qed.

Lemma located_unchangedLine (ol ml : list string) (o : string) (i j : nat) :
  nth_error ol i = Some o -> nth_error ml j = Some o ->
  located ol ml (unchangedLine o (S i) (S j)).
Proof.
  intros Ho Hm. split; intros n Hn; simpl in Hn; inversion Hn; subst; simpl;
    rewrite Nat.sub_0_r; (split; [lia|assumption]).
Qed.

Lemma turn_numbering (originalLines modifiedLines : list string) (s s' : Loop.state) :
  numbering_inv originalLines modifiedLines s ->
  turn originalLines modifiedLines s s' ->
  numbering_inv originalLines modifiedLines s'.
Proof.
  unfold numbering_inv.
  intros (Hl & Hr & Hi & Hj & HL & HR & Hloc) Hturn.
  destruct Hturn; cbn [Loop.lines Loop.i Loop.j Loop.leftLine Loop.rightLine] in *;
    subst;
    repeat match goal with
           | H : nth_error _ _ = Some _ |- _ =>
               pose proof (nth_error_lt _ _ _ H); revert H
           end; intros;
    repeat rewrite leftNumbers_app; repeat rewrite rightNumbers_app;
    rewrite HL, HR; rewrite ?seq_1_snoc; cbn [leftNumbers rightNumbers flat_map
      addLine removeLine unchangedLine lineNumbers left right app];
    rewrite ?app_nil_r;
    repeat split; try reflexivity; try lia;
    repeat (apply Forall_app; split); try assumption;
    try (apply Forall_cons; [|apply Forall_nil]);
    auto using located_addLine, located_removeLine, located_unchangedLine.
Qed.

Lemma generateDiffLines_numbering (original modified : string) :
  leftNumbers (generateDiffLines original modified)
    = seq 1 (List.length (Js.split original)) /\
  rightNumbers (generateDiffLines original modified)
    = seq 1 (List.length (Js.split modified)) /\
  Forall (located (Js.split original) (Js.split modified))
         (generateDiffLines original modified).
Proof.
  destruct (generateDiffLines_invariant
              (numbering_inv (Js.split original) (Js.split modified))
              original modified)
    as [st [Hlines [(_ & _ & Hi & Hj & HL & HR & Hloc) [Hei Hej]]]].
  - unfold numbering_inv. simpl. repeat split; try lia. constructor.
  - intros s s'. apply turn_numbering.
  - apply nth_error_None in Hei, Hej.
    rewrite Hlines, HL, HR.
    replace (Loop.i st) with (List.length (Js.split original)) by lia.
    replace (Loop.j st) with (List.length (Js.split modified)) by lia.
    now repeat split.
Qed.

(** X1.  The left line numbers of the lines [generateDiffLines] returns
    are 1, 2, ..., up to the number of left lines, in output order and
    without a gap or a repeat; likewise on the right. *)
Theorem X1_line_numbers_consecutive (original modified : string) :
  leftNumbers (generateDiffLines original modified) = seq 1 (lineCount original) /\
  rightNumbers (generateDiffLines original modified) = seq 1 (lineCount modified).
Proof.
  destruct (generateDiffLines_numbering original modified) as [HL [HR _]].
  now split.
Qed.

(** X2.  Every line number [generateDiffLines] writes points at the line's
    own content: a line with left number [n] has the content of the
    [n]-th line of the left input, a line with right number [n] that of
    the [n]-th line of the right input.  So an [Unchanged] line stands for
    two equal input lines. *)
Theorem X2_line_numbers_locate_content (original modified : string) (l : DiffLine) :
  In l (generateDiffLines original modified) ->
  (forall n, left (lineNumbers l) = Some n ->
     1 <= n /\ nth_error (Js.split original) (n - 1) = Some (content l)) /\
  (forall n, right (lineNumbers l) = Some n ->
     1 <= n /\ nth_error (Js.split modified) (n - 1) = Some (content l)).
Proof.
  intro Hin.
  destruct (generateDiffLines_numbering original modified) as [_ [_ Hloc]].
  rewrite Forall_forall in Hloc. exact (Hloc l Hin).
Qed.

(** X2, at the second line of the diff of [a] against [a], [b]. *)
Lemma X2_line_numbers_locate_content_witness :
  let l := addLine "b" 2 in
  (forall n, left (lineNumbers l) = Some n ->
     1 <= n /\ nth_error (Js.split "a") (n - 1) = Some (content l)) /\
  (forall n, right (lineNumbers l) = Some n ->
     1 <= n /\ nth_error (Js.split (joinLines ["a"; "b"])) (n - 1) = Some (content l)).
Proof.
  apply (X2_line_numbers_locate_content "a" (joinLines ["a"; "b"]) (addLine "b" 2)).
  vm_compute. right. left. reflexivity.
Defined.

(** ** split and join *)

Lemma split_injective (a b : string) : Js.split a = Js.split b -> a = b.
Proof.
  intro H. rewrite <- (joinLines_split a), <- (joinLines_split b). now rewrite H.
Qed.

(** The segments of two texts joined by a line feed. *)
Lemma split_app (s t : string) :
  Js.split (s ++ Js.newline ++ t)%string = Js.split s ++ Js.split t.
Proof.
  induction s as [|c s IH]; [reflexivity|].
  cbn [String.append Js.split]. rewrite IH.
  destruct (Ascii.eqb c Js.LF); [reflexivity|].
  pose proof (split_nonempty s) as Hne.
  destruct (Js.split s) as [|seg segs]; [contradiction|reflexivity].
Qed.

(** ** Counting, again *)

Lemma countType_total (ls : list DiffLine) :
  countType Add ls + countType Remove ls + countType Unchanged ls = List.length ls.
Proof.
  unfold countType, hasType.
  induction ls as [|l ls IH]; simpl; [reflexivity|].
  destruct (type l); simpl; lia.
Qed.

Lemma countType_app (t : LineType) (ls ls' : list DiffLine) :
  countType t (ls ++ ls') = countType t ls + countType t ls'.
Proof.
  unfold countType. now rewrite filter_app, length_app.
Qed.

Lemma no_Add_leftContents (ls : list DiffLine) :
  countType Add ls = 0 -> leftContents ls = map content ls.
Proof.
  unfold countType, hasType, leftContents, consumesLeft.
  induction ls as [|l ls IH]; simpl; [reflexivity|].
  destruct (type l); simpl; intro H; try discriminate; f_equal; auto.
Qed.

Lemma no_Remove_rightContents (ls : list DiffLine) :
  countType Remove ls = 0 -> rightContents ls = map content ls.
Proof.
  unfold countType, hasType, rightContents, consumesRight.
  induction ls as [|l ls IH]; simpl; [reflexivity|].
  destruct (type l); simpl; intro H; try discriminate; f_equal; auto.
Qed.

Lemma Subseq_In {A : Type} (zs xs : list A) (z : A) :
  Subseq zs xs -> In z zs -> In z xs.
Proof.
  induction 1 as [|x zs xs _ IH|x zs xs _ IH]; simpl; intro Hin; auto.
  destruct Hin; auto.
Qed.

(** X3.  The result of [generateDemoResult] has one line per left line
    and per right line, a kept line standing for one of each: the number
    of lines plus [unchanged] is [totalLeft + totalRight]; so there are at
    least as many lines as the longer input has and at most as many as
    both inputs together. *)
Theorem X3_result_length (original modified : string) :
  let r := generateDemoResult original modified in
  List.length (lines r) + unchanged (stats r)
    = totalLeft (stats r) + totalRight (stats r) /\
  Nat.max (totalLeft (stats r)) (totalRight (stats r)) <= List.length (lines r) /\
  List.length (lines r) <= totalLeft (stats r) + totalRight (stats r).
Proof.
  unfold generateDemoResult. cbn [stats lines].
  rewrite calculateDiffStats_counts. cbn [unchanged totalLeft totalRight].
  destruct (generateDiffLines_counts original modified) as [HL HR].
  pose proof (countType_total (generateDiffLines original modified)).
  lia.
Qed.

(** X4.  [generateDemoResult] reports no added and no removed line exactly
    when the two inputs are the same string. *)
Theorem X4_no_change_iff_equal (original modified : string) :
  let r := generateDemoResult original modified in
  (added (stats r) = 0 /\ removed (stats r) = 0) <-> original = modified.
Proof.
  unfold generateDemoResult. cbn [stats].
  rewrite calculateDiffStats_counts. cbn [added removed].
  split.
  - intros [Ha Hr]. apply split_injective.
    destruct (generateDiffLines_contents original modified) as [HL HR].
    rewrite <- HL, <- HR.
    now rewrite (no_Add_leftContents _ Ha), (no_Remove_rightContents _ Hr).
  - intros <-.
    destruct (all_Unchanged_counts _ (generateDiffLines_same original)) as [Ha [Hr _]].
    now split.
Qed.

(** X5.  When no line of the left input is a line of the right input,
    [generateDemoResult] keeps nothing: every left line is removed and
    every right line is added. *)
Theorem X5_disjoint_inputs (original modified : string) :
  (forall x, In x (Js.split original) -> ~ In x (Js.split modified)) ->
  stats (generateDemoResult original modified) =
    {| added := lineCount modified; removed := lineCount original; unchanged := 0;
       totalLeft := lineCount original; totalRight := lineCount modified |}.
Proof.
  intro Hdisj.
  unfold generateDemoResult, lineCount. cbn [stats].
  rewrite calculateDiffStats_counts.
  destruct (generateDiffLines_counts original modified) as [HL HR].
  destruct (generateDiffLines_contents original modified) as [HcL HcR].
  assert (Hkept : countType Unchanged (generateDiffLines original modified) = 0).
  { rewrite <- keptContents_length.
    pose proof (kept_Subseq_left (generateDiffLines original modified)) as H1.
    pose proof (kept_Subseq_right (generateDiffLines original modified)) as H2.
    rewrite HcL in H1. rewrite HcR in H2.
    destruct (keptContents (generateDiffLines original modified)) as [|z zs];
      [reflexivity|].
    exfalso. apply (Hdisj z).
    - eapply Subseq_In; [exact H1|now left].
    - eapply Subseq_In; [exact H2|now left]. }
  rewrite Hkept in *. f_equal; lia.
Qed.

(** X5, for the one-line texts [a] and [b]. *)
Lemma X5_disjoint_inputs_witness :
  stats (generateDemoResult "a" "b") =
    {| added := lineCount "b"; removed := lineCount "a"; unchanged := 0;
       totalLeft := lineCount "a"; totalRight := lineCount "b" |}.
Proof.
  apply (X5_disjoint_inputs "a" "b").
  intros x [<-|[]] [H|[]]. discriminate.
Defined.

(** X6.  [calculateDiffStats] counts every line once: whatever two line
    counts it is given, [added + removed + unchanged] is the number of
    lines; and the three counts of two lists put together are the sums of
    their counts. *)
Theorem X6_counts_partition_lines (ls ls' : list DiffLine) (n m n' m' : nat) :
  let s := calculateDiffStats ls n m in
  let s' := calculateDiffStats ls' n' m' in
  let both := calculateDiffStats (ls ++ ls') (n + n') (m + m') in
  added s + removed s + unchanged s = List.length ls /\
  added both = added s + added s' /\
  removed both = removed s + removed s' /\
  unchanged both = unchanged s + unchanged s'.
Proof.
  cbn zeta. rewrite !calculateDiffStats_counts. cbn [added removed unchanged].
  rewrite !countType_app. pose proof (countType_total ls). now repeat split.
Qed.

(** ** generateDiffLines: lines appended or cut off at the end *)

Lemma unchangedFrom_snoc (xs : list string) (x : string) :
  forall l r,
    unchangedFrom l r (xs ++ [x]) =
    unchangedFrom l r xs ++ [unchangedLine x (l + List.length xs) (r + List.length xs)].
Proof.
  induction xs as [|y xs IH]; intros l r; simpl.
  - now rewrite !Nat.add_0_r.
  - rewrite IH. simpl. now rewrite <- !plus_n_Sm.
Qed.

Lemma addFrom_snoc (xs : list string) (x : string) :
  forall r, addFrom r (xs ++ [x]) = addFrom r xs ++ [addLine x (r + List.length xs)].
Proof.
  induction xs as [|y xs IH]; intro r; simpl.
  - now rewrite Nat.add_0_r.
  - rewrite IH. simpl. now rewrite <- plus_n_Sm.
Qed.

Lemma removeFrom_snoc (xs : list string) (x : string) :
  forall l, removeFrom l (xs ++ [x]) = removeFrom l xs ++ [removeLine x (l + List.length xs)].
Proof.
  induction xs as [|y xs IH]; intro l; simpl.
  - now rewrite Nat.add_0_r.
  - rewrite IH. simpl. now rewrite <- plus_n_Sm.
Qed.

Lemma firstn_length_lt {A : Type} (l : list A) (n : nat) :
  n <= List.length l -> List.length (firstn n l) = n.
Proof.
  intro H. rewrite length_firstn. lia.
Qed.

Lemma turn_append (xs extra : list string) (s s' : Loop.state) :
  append_inv xs extra s -> turn xs (xs ++ extra) s s' -> append_inv xs extra s'.
Proof.
  unfold append_inv. intros (Hl & Hr & Hi & Hj & Hls) Hturn.
  destruct Hturn as [ls l r i j m Hm Hne|ls l r i j o Ho Hne|ls l r i j o Ho Hm
                    |ls l r i j o m Ho Hm Hne];
    cbn [Loop.lines Loop.i Loop.j Loop.leftLine Loop.rightLine] in *.
  - (* add: the common lines are read, [m] is an extra line *)
    destruct (Nat.lt_ge_cases j (List.length xs)) as [Hlt|Hge].
    { exfalso. apply Hne. rewrite nth_error_app1 by assumption.
      now replace i with j by lia. }
    pose proof (nth_error_lt _ _ _ Hm) as Hjlt. rewrite length_app in Hjlt.
    rewrite nth_error_app2 in Hm by assumption.
    repeat split; try lia.
    replace (S j - List.length xs) with (S (j - List.length xs)) by lia.
    rewrite (firstn_snoc _ _ _ Hm), addFrom_snoc, firstn_length_lt by lia.
    rewrite Hls, <- app_assoc. subst r.
    now replace (S (List.length xs) + (j - List.length xs)) with (S j) by lia.
  - (* remove: impossible, the two current lines are the same *)
    exfalso. apply Hne. pose proof (nth_error_lt _ _ _ Ho).
    rewrite nth_error_app1 by lia. now replace j with i by lia.
  - (* keep *)
    pose proof (nth_error_lt _ _ _ Ho) as Hilt.
    repeat split; try lia.
    replace (S j - List.length xs) with 0 by lia.
    replace (j - List.length xs) with 0 in Hls by lia.
    rewrite (firstn_snoc _ _ _ Ho), unchangedFrom_snoc, firstn_length_lt by lia.
    rewrite Hls. cbn [firstn addFrom]. rewrite !app_nil_r. subst l r.
    now replace j with i by lia.
  - (* modify: impossible *)
    exfalso. apply Hne. pose proof (nth_error_lt _ _ _ Ho).
    rewrite nth_error_app1 in Hm by lia.
    replace j with i in Hm by lia. congruence.
Qed.

Lemma turn_truncate (xs extra : list string) (s s' : Loop.state) :
  truncate_inv xs extra s -> turn (xs ++ extra) xs s s' -> truncate_inv xs extra s'.
Proof.
  unfold truncate_inv. intros (Hl & Hr & Hj & Hi & Hls) Hturn.
  destruct Hturn as [ls l r i j m Hm Hne|ls l r i j o Ho Hne|ls l r i j o Ho Hm
                    |ls l r i j o m Ho Hm Hne];
    cbn [Loop.lines Loop.i Loop.j Loop.leftLine Loop.rightLine] in *.
  - (* add: impossible *)
    exfalso. apply Hne. pose proof (nth_error_lt _ _ _ Hm).
    rewrite nth_error_app1 by lia. now replace i with j by lia.
  - (* remove: the common lines are read, [o] is an extra line *)
    destruct (Nat.lt_ge_cases i (List.length xs)) as [Hlt|Hge].
    { exfalso. apply Hne. rewrite nth_error_app1 by assumption.
      now replace j with i by lia. }
    pose proof (nth_error_lt _ _ _ Ho) as Hilt. rewrite length_app in Hilt.
    rewrite nth_error_app2 in Ho by assumption.
    repeat split; try lia.
    replace (S i - List.length xs) with (S (i - List.length xs)) by lia.
    rewrite (firstn_snoc _ _ _ Ho), removeFrom_snoc, firstn_length_lt by lia.
    rewrite Hls, <- app_assoc. subst l.
    now replace (S (List.length xs) + (i - List.length xs)) with (S i) by lia.
  - (* keep *)
    pose proof (nth_error_lt _ _ _ Hm) as Hjlt.
    repeat split; try lia.
    replace (S i - List.length xs) with 0 by lia.
    replace (i - List.length xs) with 0 in Hls by lia.
    rewrite (firstn_snoc _ _ _ Hm), unchangedFrom_snoc, firstn_length_lt by lia.
    rewrite Hls. cbn [firstn removeFrom]. rewrite !app_nil_r. subst l r.
    now replace i with j by lia.
  - (* modify: impossible *)
    exfalso. apply Hne. pose proof (nth_error_lt _ _ _ Hm).
    rewrite nth_error_app1 in Ho by lia.
    replace i with j in Ho by lia. congruence.
Qed.

(** X7.  Lines appended at the end: the diff of [s] against [s], a line
    feed and [t] keeps every line of [s] under the same number on both
    sides and then adds every line of [t], numbered on from there. *)
Theorem X7_lines_appended (s t : string) :
  generateDiffLines s (s ++ Js.newline ++ t)%string =
    unchangedFrom 1 1 (Js.split s) ++ addFrom (S (lineCount s)) (Js.split t).
Proof.
  unfold lineCount.
  destruct (generateDiffLines_invariant
              (append_inv (Js.split s) (Js.split t))
              s (s ++ Js.newline ++ t)%string)
    as [st [Hlines [(_ & _ & Hi & Hj & Hls) [Hei Hej]]]].
  - unfold append_inv. simpl. repeat split; lia.
  - intros st st'. rewrite split_app. apply turn_append.
  - rewrite split_app in Hej. apply nth_error_None in Hei, Hej.
    rewrite length_app in Hej.
    rewrite Hlines, Hls.
    now rewrite !firstn_all2 by lia.
Qed.

(** X8.  Lines cut off at the end: the diff of [s], a line feed and [t]
    against [s] keeps every line of [s] and then removes every line of
    [t]. *)
Theorem X8_lines_cut_off (s t : string) :
  generateDiffLines (s ++ Js.newline ++ t)%string s =
    unchangedFrom 1 1 (Js.split s) ++ removeFrom (S (lineCount s)) (Js.split t).
Proof.
  unfold lineCount.
  destruct (generateDiffLines_invariant
              (truncate_inv (Js.split s) (Js.split t))
              (s ++ Js.newline ++ t)%string s)
    as [st [Hlines [(_ & _ & Hj & Hi & Hls) [Hei Hej]]]].
  - unfold truncate_inv. simpl. repeat split; lia.
  - intros st st'. rewrite split_app. apply turn_truncate.
  - rewrite split_app in Hei. apply nth_error_None in Hei, Hej.
    rewrite length_app in Hei.
    rewrite Hlines, Hls.
    now rewrite !firstn_all2 by lia.
Qed.

(** ** The provider *)

Section ProviderFacts.

Variable scenarios : list DemoScenario.t.

Lemma findScenario_some (scenarioId : option string) (s : DemoScenario.t) :
  findScenario scenarios scenarioId = Some s ->
  In s scenarios /\ scenarioId = Some (DemoScenario.id s).
Proof.
  destruct scenarioId as [wanted|]; simpl; [|discriminate].
  intro H. apply find_some in H. destruct H as [Hin Heq].
  apply String.eqb_eq in Heq. subst. now split.
Qed.

Lemma findScenario_none (wanted : string) :
  findScenario scenarios (Some wanted) = None <->
  forall s, In s scenarios -> DemoScenario.id s <> wanted.
Proof.
  simpl. split.
  - intros H s Hin Heq.
    pose proof (find_none _ _ H s Hin) as Hf. simpl in Hf.
    apply String.eqb_neq in Hf. contradiction.
  - intro H. destruct (find _ scenarios) as [s|] eqn:Hf; [|reflexivity].
    apply find_some in Hf. destruct Hf as [Hin Heq].
    apply String.eqb_eq in Heq. now apply H in Hin.
Qed.

Lemma perform_consistent (st : DemoState.t) (a : DemoAction) :
  consistent scenarios st -> consistent scenarios (perform scenarios st a).
Proof.
  unfold consistent. intros (Hres & Hin & Hdemo).
  destruct a as [scenarioId| |scenarioId|newOptions]; simpl.
  - unfold enterDemo.
    destruct (findScenario scenarios scenarioId) as [s|] eqn:Hf.
    + apply findScenario_some in Hf. destruct Hf as [Hs _].
      simpl. repeat split; try discriminate.
      intros s' H. now inversion H; subst.
    + destruct scenarios as [|s rest] eqn:Hsc; simpl.
      * now repeat split.
      * repeat split; try discriminate.
        intros s' H. inversion H; subst. now left.
  - repeat split; simpl; try discriminate.
  - unfold selectScenario.
    destruct (findScenario scenarios (Some scenarioId)) as [s|] eqn:Hf.
    + apply findScenario_some in Hf. destruct Hf as [Hs _].
      simpl. repeat split; try discriminate.
      intros s' H. now inversion H; subst.
    + now repeat split.
  - simpl. now repeat split.
Qed.

End ProviderFacts.

(** X9.  Whatever calls of [enterDemo], [exitDemo], [selectScenario] and
    [updateOptions] are made on the provider, in whatever order, the
    result it holds is the diff of its active scenario (and there is none
    when no scenario is active), the active scenario is one of the
    scenarios, and demo mode is only on with an active scenario. *)
Theorem X9_provider_consistent (scenarios : list DemoScenario.t)
    (actions : list DemoAction) :
  let st := performAll scenarios actions DemoState_initial in
  DemoState.diffResult st = option_map resultOf (DemoState.activeScenario st) /\
  (forall s, DemoState.activeScenario st = Some s -> In s scenarios) /\
  (DemoState.isDemo st = true -> DemoState.activeScenario st <> None).
Proof.
  cbn zeta. unfold performAll.
  change (consistent scenarios (fold_left (perform scenarios) actions DemoState_initial)).
  assert (H0 : consistent scenarios DemoState_initial).
  { unfold consistent. simpl. repeat split; discriminate. }
  revert H0. generalize DemoState_initial.
  induction actions as [|a actions IH]; intros st Hst; simpl; [assumption|].
  apply IH. now apply perform_consistent.
Qed.

(** X10.  [selectScenario] with the id of a scenario makes the first
    scenario with that id the active one and stores its diff, leaving demo
    mode and the options as they are; with an id no scenario has, it
    changes nothing. *)
Theorem X10_selectScenario (scenarios : list DemoScenario.t) (wanted : string)
    (st : DemoState.t) :
  let st' := selectScenario scenarios wanted st in
  (exists s,
      find (fun s => String.eqb (DemoScenario.id s) wanted) scenarios = Some s /\
      In s scenarios /\ DemoScenario.id s = wanted /\
      DemoState.activeScenario st' = Some s /\
      DemoState.diffResult st' = Some (resultOf s) /\
      DemoState.isDemo st' = DemoState.isDemo st /\
      DemoState.options st' = DemoState.options st)
  \/ ((forall s, In s scenarios -> DemoScenario.id s <> wanted) /\ st' = st).
Proof.
  cbn zeta. unfold selectScenario.
  destruct (findScenario scenarios (Some wanted)) as [s|] eqn:Hf.
  - left. exists s. destruct (findScenario_some _ _ _ Hf) as [Hin Hid].
    split; [exact Hf|]. split; [exact Hin|]. split; [congruence|].
    now repeat split.
  - right. split; [|reflexivity]. now apply findScenario_none.
Qed.

(** X11.  [enterDemo] changes nothing when there is no scenario at all;
    otherwise it turns demo mode on and activates, with its diff, the
    first scenario with the wanted id, or the first scenario of the list
    when no id is given or no scenario has it. *)
Theorem X11_enterDemo (scenarios : list DemoScenario.t) (scenarioId : option string)
    (st : DemoState.t) :
  let st' := enterDemo scenarios scenarioId st in
  match scenarios with
  | [] => st' = st
  | first :: _ =>
      DemoState.isDemo st' = true /\
      DemoState.options st' = DemoState.options st /\
      exists s,
        DemoState.activeScenario st' = Some s /\
        DemoState.diffResult st' = Some (resultOf s) /\
        In s scenarios /\
        match scenarioId with
        | Some wanted =>
            (find (fun s' => String.eqb (DemoScenario.id s') wanted) scenarios
               = Some s /\
             DemoScenario.id s = wanted) \/
            ((forall s', In s' scenarios -> DemoScenario.id s' <> wanted) /\
             find (fun s' => String.eqb (DemoScenario.id s') wanted) scenarios
               = None /\
             s = first)
        | None => s = first
        end
  end.
Proof.
  cbn zeta. unfold enterDemo.
  destruct (findScenario scenarios scenarioId) as [s|] eqn:Hf.
  - destruct (findScenario_some _ _ _ Hf) as [Hin Hid].
    destruct scenarios as [|first rest]; [contradiction|].
    split; [reflexivity|]. split; [reflexivity|].
    exists s. split; [reflexivity|]. split; [reflexivity|]. split; [assumption|].
    subst scenarioId. left. split; [exact Hf|reflexivity].
  - destruct scenarios as [|first rest]; [reflexivity|].
    split; [reflexivity|]. split; [reflexivity|].
    exists first. split; [reflexivity|]. split; [reflexivity|].
    split; [now left|].
    destruct scenarioId as [wanted|]; [|reflexivity].
    right. split; [|split; [exact Hf|reflexivity]].
    exact (proj1 (findScenario_none (first :: rest) wanted) Hf).
Qed.

(** X12.  Two calls of [updateOptions] amount to one call with the second
    partial options spread over the first; a call changes the options
    only, not the scenario, the result or demo mode. *)
Theorem X12_updateOptions_compose (p q : PartialDiffOptions.t) (st : DemoState.t) :
  updateOptions q (updateOptions p st) = updateOptions (spreadPartial p q) st /\
  DemoState.isDemo (updateOptions p st) = DemoState.isDemo st /\
  DemoState.activeScenario (updateOptions p st) = DemoState.activeScenario st /\
  DemoState.diffResult (updateOptions p st) = DemoState.diffResult st.
Proof.
  split; [|now repeat split].
  destruct p as [pg pw pc pt pb], q as [qg qw qc qt qb].
  unfold updateOptions, spreadPartial, spread. simpl.
  destruct qg, qw, qc, qt, qb; reflexivity.
Qed.

(** ** The effect of the demo page *)

Lemma enterDemo_idempotent (scenarios : list DemoScenario.t)
    (scenarioId : option string) (st : DemoState.t) :
  enterDemo scenarios scenarioId (enterDemo scenarios scenarioId st)
  = enterDemo scenarios scenarioId st.
Proof.
  unfold enterDemo.
  destruct (match findScenario scenarios scenarioId with
            | Some s => Some s
            | None => nth_error scenarios 0
            end) as [s|]; reflexivity.
Qed.

Lemma pageEffect_after_enterDemo (scenarios : list DemoScenario.t)
    (scenarioId : option string) (st : DemoState.t) :
  let wanted := if truthy scenarioId then scenarioId else None in
  pageEffect scenarios scenarioId (enterDemo scenarios wanted st)
  = enterDemo scenarios wanted st.
Proof.
  cbn zeta. unfold pageEffect.
  destruct (DemoState.isDemo (enterDemo scenarios _ st)) eqn:Hdemo; simpl.
  - destruct scenarioId as [[|c w]|]; simpl; try reflexivity.
    destruct (activeIdDiffers _ (String c w)); [|reflexivity].
    apply enterDemo_idempotent.
  - apply enterDemo_idempotent.
Qed.

(** X13.  The effect of the demo page settles: run again on the state it
    produced, with the same [scenario] parameter, it produces that state
    again.  And when there is a scenario, the state it produces from a
    state out of demo mode is in demo mode with an active scenario. *)
Theorem X13_pageEffect_settles (scenarios : list DemoScenario.t)
    (scenarioId : option string) (st : DemoState.t) :
  let st' := pageEffect scenarios scenarioId st in
  pageEffect scenarios scenarioId st' = st' /\
  (scenarios = [] \/ DemoState.isDemo st = true \/
   (DemoState.isDemo st' = true /\ DemoState.activeScenario st' <> None)).
Proof.
  cbn zeta. split.
  - destruct (DemoState.isDemo st) eqn:Hdemo.
    + destruct scenarioId as [[|c w]|].
      * assert (H : pageEffect scenarios (Some "") st = st)
          by (unfold pageEffect; now rewrite Hdemo).
        rewrite H. exact H.
      * destruct (activeIdDiffers st (String c w)) eqn:Hdiff.
        -- assert (H : pageEffect scenarios (Some (String c w)) st
                       = enterDemo scenarios (Some (String c w)) st)
             by (unfold pageEffect; rewrite Hdemo; simpl; now rewrite Hdiff).
           rewrite H.
           apply (pageEffect_after_enterDemo scenarios (Some (String c w)) st).
        -- assert (H : pageEffect scenarios (Some (String c w)) st = st)
             by (unfold pageEffect; rewrite Hdemo; simpl; now rewrite Hdiff).
           rewrite H. exact H.
      * assert (H : pageEffect scenarios None st = st)
          by (unfold pageEffect; now rewrite Hdemo).
        rewrite H. exact H.
    + assert (H : pageEffect scenarios scenarioId st
                  = enterDemo scenarios (if truthy scenarioId then scenarioId else None) st)
        by (unfold pageEffect; now rewrite Hdemo).
      rewrite H. apply pageEffect_after_enterDemo.
  - destruct scenarios as [|first rest]; [now left|]. right.
    destruct (DemoState.isDemo st) eqn:Hdemo; [now left|]. right.
    unfold pageEffect. rewrite Hdemo. simpl. unfold enterDemo.
    destruct (findScenario (first :: rest) _); simpl; split;
      discriminate || reflexivity.
Qed.

(** ** The groups of the sidebar *)

Lemma Category_eqb_eq (a b : Category) : Category_eqb a b = true <-> a = b.
Proof.
  destruct a, b; simpl; split; intro H; try reflexivity; discriminate.
Qed.

Lemma group_pushTo (acc : Groups) (k c : Category) (x : DemoScenario.t) :
  group (pushTo acc k x) c =
  if Category_eqb k c
  then Some (match group acc k with Some g => g ++ [x] | None => [x] end)
  else group acc c.
Proof.
  induction acc as [|[c0 g] acc IH]; simpl.
  - destruct (Category_eqb k c) eqn:E; [reflexivity|].
    now destruct k, c.
  - destruct (Category_eqb c0 k) eqn:E0; simpl.
    + apply Category_eqb_eq in E0. subst c0.
      now destruct (Category_eqb k c).
    + rewrite IH. destruct (Category_eqb c0 c) eqn:E1; [|reflexivity].
      apply Category_eqb_eq in E1. subst c0.
      destruct k, c; simpl in *; try discriminate; reflexivity.
Qed.

Lemma group_keys (acc : Groups) (k : Category) :
  group acc k = None <-> ~ In k (map fst acc).
Proof.
  induction acc as [|[c0 g] acc IH]; simpl.
  - tauto.
  - destruct (Category_eqb c0 k) eqn:E.
    + apply Category_eqb_eq in E. split; [discriminate|]. intro H. tauto.
    + rewrite IH. split; [|tauto]. intros H [H1|H1]; [|tauto].
      subst. now destruct k.
Qed.

Lemma keys_pushTo (acc : Groups) (k : Category) (x : DemoScenario.t) :
  map fst (pushTo acc k x) =
  map fst acc ++ match group acc k with Some _ => [] | None => [k] end.
Proof.
  induction acc as [|[c0 g] acc IH]; simpl; [reflexivity|].
  destruct (Category_eqb c0 k); simpl.
  - now rewrite app_nil_r.
  - now rewrite IH.
Qed.

Lemma groupedScenarios_snoc (scenarios : list DemoScenario.t) (x : DemoScenario.t) :
  groupedScenarios (scenarios ++ [x]) =
  pushTo (groupedScenarios scenarios) (DemoScenario.category x) x.
Proof.
  unfold groupedScenarios. now rewrite fold_left_app.
Qed.

(** X14.  [groupedScenarios] has one entry per category that occurs, with
    no key twice, and the entry of a category holds the scenarios of that
    category, all of them, in their order; a category without a scenario
    has no entry. *)
Theorem X14_groupedScenarios (scenarios : list DemoScenario.t) (c : Category) :
  group (groupedScenarios scenarios) c =
    match ofCategory c scenarios with
    | [] => None
    | s :: ss => Some (s :: ss)
    end /\
  NoDup (map fst (groupedScenarios scenarios)).
Proof.
  split.
  - revert c. induction scenarios as [|x scenarios IH] using rev_ind; intro c;
      [reflexivity|].
    rewrite groupedScenarios_snoc, group_pushTo.
    unfold ofCategory in *. rewrite filter_app. simpl.
    destruct (Category_eqb (DemoScenario.category x) c) eqn:E.
    + apply Category_eqb_eq in E. subst c. rewrite IH.
      now destruct (filter _ scenarios).
    + rewrite app_nil_r. apply IH.
  - induction scenarios as [|x scenarios IH] using rev_ind; [constructor|].
    rewrite groupedScenarios_snoc, keys_pushTo.
    destruct (group (groupedScenarios scenarios) (DemoScenario.category x)) eqn:E.
    + now rewrite app_nil_r.
    + apply group_keys in E. apply NoDup_app; repeat split; try assumption.
      * repeat constructor. simpl. tauto.
      * intros k Hk [Hk'|[]]. subst. contradiction.
Qed.

(** ** The split view *)

Lemma present_snoc (column : list (option DiffLine)) (cell : option DiffLine) :
  present (column ++ [cell]) =
  present column ++ match cell with Some l => [l] | None => [] end.
Proof.
  unfold present. rewrite flat_map_app. simpl. now rewrite app_nil_r.
Qed.

Lemma combine_snoc {A B : Type} (xs : list A) (ys : list B) (x : A) (y : B) :
  List.length xs = List.length ys ->
  combine (xs ++ [x]) (ys ++ [y]) = combine xs ys ++ [(x, y)].
Proof.
  revert ys. induction xs as [|a xs IH]; intros [|b ys] H; simpl in *;
    try discriminate; [reflexivity|].
  f_equal. apply IH. now inversion H.
Qed.

Section SplitFacts.

Variable lines : list DiffLine.

Lemma split_body_inv (st st' : Split.state) :
  split_inv lines st -> split_body lines st = Some st' ->
  split_inv lines st' /\ Split.i st < Split.i st'.
Proof.
  unfold split_inv, split_body, Js.push.
  destruct st as [i L R]. cbn [Split.i Split.leftLines Split.rightLines].
  intros (Hlen & HiL & Hi & HL & HR & Hrows).
  destruct (nth_error lines i) as [thisLine|] eqn:Hthis; [|discriminate].
  pose proof (nth_error_lt _ _ _ Hthis) as Hlt.
  pose proof (firstn_snoc _ _ _ Hthis) as Hfirst.
  assert (Hone : forall a b : option DiffLine,
             rowShown (a, b) ->
             match a with Some l => [l] | None => [] end
               = filter consumesLeft [thisLine] ->
             match b with Some l => [l] | None => [] end
               = filter consumesRight [thisLine] ->
             split_inv lines
               {| Split.i := S i; Split.leftLines := L ++ [a];
                  Split.rightLines := R ++ [b] |} /\ i < S i).
  { intros a b Hrow Ha Hb. split; [|lia].
    unfold split_inv. cbn [Split.i Split.leftLines Split.rightLines].
    rewrite !length_app, !present_snoc, Hfirst, !filter_app, HL, HR, Ha, Hb.
    rewrite combine_snoc by assumption.
    simpl. repeat split; try lia.
    apply Forall_app. split; [assumption|]. now constructor. }
  unfold consumesLeft, consumesRight in Hone.
  destruct (type thisLine) eqn:Htype.
  - (* add *)
    intro H. inversion H; subst. apply Hone; simpl; rewrite ?Htype; try reflexivity.
    right. discriminate.
  - (* remove *)
    destruct (nth_error lines (i + 1)) as [nextLine|] eqn:Hnext.
    + destruct (LineType_eqb (type nextLine) Add) eqn:Hadd.
      * (* paired with the add that follows *)
        intro H. inversion H; subst. clear H.
        replace (i + 1) with (S i) in * by lia.
        pose proof (nth_error_lt _ _ _ Hnext) as Hlt'.
        pose proof (firstn_snoc _ _ _ Hnext) as Hfirst'.
        split; [|simpl; lia].
        unfold split_inv. cbn [Split.i Split.leftLines Split.rightLines].
        rewrite !length_app, !present_snoc, Hfirst', Hfirst, !filter_app, HL, HR.
        rewrite combine_snoc by assumption.
        assert (Htn : type nextLine = Add) by (now destruct (type nextLine)).
        unfold consumesLeft, consumesRight. simpl. rewrite Htype, Htn.
        simpl. rewrite !app_nil_r. repeat split; try lia.
        apply Forall_app. split; [assumption|].
        constructor; [|constructor]. left. discriminate.
      * intro H. inversion H; subst.
        apply Hone; simpl; rewrite ?Htype; try reflexivity. left. discriminate.
    + intro H. inversion H; subst.
      apply Hone; simpl; rewrite ?Htype; try reflexivity. left. discriminate.
  - (* unchanged *)
    intro H. inversion H; subst. apply Hone; simpl; rewrite ?Htype; try reflexivity.
    left. discriminate.
Qed.

Lemma split_body_None (st : Split.state) :
  split_body lines st = None -> nth_error lines (Split.i st) = None.
Proof.
  unfold split_body.
  destruct (nth_error lines (Split.i st)) as [thisLine|]; [|reflexivity].
  destruct (type thisLine); try discriminate.
  destruct (nth_error lines (Split.i st + 1)) as [nextLine|]; [|discriminate].
  destruct (LineType_eqb (type nextLine) Add); discriminate.
Qed.

Lemma split_loop_returns (fuel : nat) :
  forall st,
    split_inv lines st -> List.length lines - Split.i st <= fuel ->
    exists st',
      split_loop lines fuel st = Some st' /\ split_inv lines st' /\
      nth_error lines (Split.i st') = None.
Proof.
  induction fuel as [|fuel IH]; intros st Hinv Hfuel; simpl;
    destruct (split_body lines st) as [st1|] eqn:Hb.
  - destruct (split_body_inv _ _ Hinv Hb) as [(_ & _ & Hi1 & _) Hlt]. lia.
  - exists st. split; [reflexivity|]. split; [assumption|].
    now apply split_body_None.
  - destruct (split_body_inv _ _ Hinv Hb) as [Hinv1 Hlt].
    apply IH; [assumption|lia].
  - exists st. split; [reflexivity|]. split; [assumption|].
    now apply split_body_None.
Qed.

(** The two columns, for any list of lines. *)
Lemma splitColumns_spec :
  splitColumns_opt lines = Some (splitColumns lines) /\
  List.length (fst (splitColumns lines)) = List.length (snd (splitColumns lines)) /\
  List.length (fst (splitColumns lines)) <= List.length lines /\
  present (fst (splitColumns lines)) = filter consumesLeft lines /\
  present (snd (splitColumns lines)) = filter consumesRight lines /\
  Forall rowShown (combine (fst (splitColumns lines)) (snd (splitColumns lines))).
Proof.
  destruct (split_loop_returns (List.length lines) split_initial)
    as [st [Hrun [(Hlen & HiL & Hi & HL & HR & Hrows) Hend]]].
  { unfold split_inv. simpl. repeat split; try lia. constructor. }
  { simpl. lia. }
  unfold splitColumns, splitColumns_opt. rewrite Hrun. simpl.
  rewrite (firstn_past _ _ Hend) in HL, HR.
  repeat split; try assumption. lia.
Qed.

End SplitFacts.

Lemma In_present (column : list (option DiffLine)) (l : DiffLine) :
  In (Some l) column -> In l (present column).
Proof.
  unfold present. intro H. apply in_flat_map. exists (Some l). split; [assumption|].
  now left.
Qed.

Lemma leftNumbers_consumesLeft (ls : list DiffLine) :
  Forall numbered ls -> leftNumbers (filter consumesLeft ls) = leftNumbers ls.
Proof.
  unfold leftNumbers, consumesLeft, numbered.
  induction 1 as [|l ls Hl _ IH]; simpl; [reflexivity|].
  destruct (type l); simpl; rewrite IH; [|reflexivity|reflexivity].
  destruct Hl as [Hl _]. now rewrite Hl.
Qed.

Lemma rightNumbers_consumesRight (ls : list DiffLine) :
  Forall numbered ls -> rightNumbers (filter consumesRight ls) = rightNumbers ls.
Proof.
  unfold rightNumbers, consumesRight, numbered.
  induction 1 as [|l ls Hl _ IH]; simpl; [reflexivity|].
  destruct (type l); simpl; rewrite IH; [reflexivity| |reflexivity].
  destruct Hl as [_ Hl]. now rewrite Hl.
Qed.

(** X15.  The loop of [SplitView] ends, whatever the lines are; its two
    columns have the same number of rows, at most one row per line, and no
    row is empty on both sides. *)
Theorem X15_split_rows_aligned (ls : list DiffLine) :
  splitColumns_opt ls = Some (splitColumns ls) /\
  List.length (fst (splitColumns ls)) = List.length (snd (splitColumns ls)) /\
  List.length (fst (splitColumns ls)) <= List.length ls /\
  Forall (fun row => fst row <> None \/ snd row <> None)
         (combine (fst (splitColumns ls)) (snd (splitColumns ls))).
Proof.
  destruct (splitColumns_spec ls) as (H1 & H2 & H3 & _ & _ & H6).
  now repeat split.
Qed.

(** X16.  [SplitView] loses and repeats no line: the lines of its left
    column, from top to bottom, are the [Unchanged] and [Remove] lines of
    the list in their order, those of its right column the [Unchanged] and
    [Add] lines. *)
Theorem X16_split_columns_hold_the_lines (ls : list DiffLine) :
  present (fst (splitColumns ls)) = filter consumesLeft ls /\
  present (snd (splitColumns ls)) = filter consumesRight ls.
Proof.
  destruct (splitColumns_spec ls) as (_ & _ & _ & H4 & H5 & _).
  now split.
Qed.

(** X17.  The split view of a diff: for the lines of [generateDiffLines],
    the left column reads, from top to bottom, the lines of the left input
    under the numbers 1, 2, ..., the right column the lines of the right
    input likewise; and every cell that holds a line shows a line
    number. *)
Theorem X17_split_view_of_diff (original modified : string) :
  let columns := splitColumns (generateDiffLines original modified) in
  map content (present (fst columns)) = Js.split original /\
  map content (present (snd columns)) = Js.split modified /\
  leftNumbers (present (fst columns)) = seq 1 (lineCount original) /\
  rightNumbers (present (snd columns)) = seq 1 (lineCount modified) /\
  Forall (fun cell => cell <> None -> cellLineNumber cell sideLeft <> None)
         (fst columns) /\
  Forall (fun cell => cell <> None -> cellLineNumber cell sideRight <> None)
         (snd columns).
Proof.
  cbn zeta.
  destruct (splitColumns_spec (generateDiffLines original modified))
    as (_ & _ & _ & HL & HR & _).
  destruct (generateDiffLines_contents original modified) as [HcL HcR].
  destruct (generateDiffLines_numbering original modified) as [HnL [HnR _]].
  pose proof (generateDiffLines_numbered original modified) as Hnum.
  rewrite HL, HR.
  rewrite (leftNumbers_consumesLeft _ Hnum), (rightNumbers_consumesRight _ Hnum).
  repeat split; try assumption.
  - apply Forall_forall. intros [l|] Hin Hsome; [|contradiction].
    apply In_present in Hin. rewrite HL in Hin. apply filter_In in Hin.
    destruct Hin as [Hin Hcons]. rewrite Forall_forall in Hnum.
    specialize (Hnum l Hin). unfold numbered, consumesLeft in *. simpl.
    destruct (type l); try discriminate; tauto.
  - apply Forall_forall. intros [l|] Hin Hsome; [|contradiction].
    apply In_present in Hin. rewrite HR in Hin. apply filter_In in Hin.
    destruct Hin as [Hin Hcons]. rewrite Forall_forall in Hnum.
    specialize (Hnum l Hin). unfold numbered, consumesRight in *. simpl.
    destruct (type l); try discriminate; tauto.
Qed.

Example split_view_of_modification :
  splitColumns (generateDiffLines "cat" "car") =
    ([Some (removeLine "cat" 1)], [Some (addLine "car" 1)]).
Proof. reflexivity. Qed.

Example split_view_of_removal :
  splitColumns (generateDiffLines (joinLines ["old line"; "original"]) "original") =
    ([Some (removeLine "old line" 1); Some (unchangedLine "original" 2 1)],
     [None; Some (unchangedLine "original" 2 1)]).
Proof. reflexivity. Qed.

(** ** generateDiffLines: the look-ahead *)

Lemma indexOf_from_spec (arr : list string) (x : string) :
  forall k, (0 <= k)%Z ->
    (Js.indexOf_from arr x k = -1 /\ ~ In x arr)%Z \/
    (k <= Js.indexOf_from arr x k /\ In x arr)%Z.
Proof.
  induction arr as [|y arr IH]; intros k Hk; simpl.
  - left. split; [reflexivity|tauto].
  - destruct (String.eqb y x) eqn:E.
    + apply String.eqb_eq in E. right. split; [lia|now left].
    + apply String.eqb_neq in E.
      destruct (IH (k + 1)%Z) as [[H1 H2]|[H1 H2]]; [lia| |].
      * left. split; [assumption|]. intros [H|H]; contradiction.
      * right. split; [lia|now right].
Qed.

(** [indexOf] returns -1 exactly when the string is not in the array. *)
Lemma indexOf_not_In (arr : list string) (x : string) :
  Js.indexOf arr x = (-1)%Z <-> ~ In x arr.
Proof.
  unfold Js.indexOf.
  destruct (indexOf_from_spec arr x 0%Z) as [[H1 H2]|[H1 H2]]; [lia| |].
  - tauto.
  - split; [lia|contradiction].
Qed.

Section Branches.

Variables originalLines modifiedLines : list string.
Variables (ls : list DiffLine) (l r i j : nat).

Abbreviation here := (Loop.Build_state ls l r i j).

Lemma loop_body_keep (x : string) :
  nth_error originalLines i = Some x -> nth_error modifiedLines j = Some x ->
  loop_body originalLines modifiedLines here =
    Some (Loop.Build_state (ls ++ [unchangedLine x l r]) (S l) (S r) (S i) (S j)).
Proof.
  intros Ho Hm. unfold loop_body. simpl. rewrite Ho, Hm.
  now rewrite String.eqb_refl.
Qed.

Lemma loop_body_add_end (m : string) :
  nth_error originalLines i = None -> nth_error modifiedLines j = Some m ->
  loop_body originalLines modifiedLines here =
    Some (Loop.Build_state (ls ++ [addLine m r]) l (S r) i (S j)).
Proof.
  intros Ho Hm. unfold loop_body. simpl. now rewrite Ho, Hm.
Qed.

Lemma loop_body_remove_end (o : string) :
  nth_error originalLines i = Some o -> nth_error modifiedLines j = None ->
  loop_body originalLines modifiedLines here =
    Some (Loop.Build_state (ls ++ [removeLine o l]) (S l) r (S i) j).
Proof.
  intros Ho Hm. unfold loop_body. simpl. now rewrite Ho, Hm.
Qed.

(** The original line comes later in the modified text and the modified
    line does not come later in the original text: the modified line is
    added. *)
Lemma loop_body_add_ahead (o m : string) :
  nth_error originalLines i = Some o -> nth_error modifiedLines j = Some m ->
  o <> m ->
  In o (skipn j modifiedLines) -> ~ In m (skipn i originalLines) ->
  loop_body originalLines modifiedLines here =
    Some (Loop.Build_state (ls ++ [addLine m r]) l (S r) i (S j)).
Proof.
  intros Ho Hm Hne Hin Hnin. unfold loop_body. simpl. rewrite Ho, Hm.
  apply String.eqb_neq in Hne. rewrite Hne.
  apply indexOf_not_In in Hnin. unfold Js.slice. rewrite Hnin.
  destruct (Js.indexOf (skipn j modifiedLines) o =? -1)%Z eqn:E.
  - apply Z.eqb_eq, indexOf_not_In in E. contradiction.
  - reflexivity.
Qed.

(** The other way round: the original line is removed. *)
Lemma loop_body_remove_ahead (o m : string) :
  nth_error originalLines i = Some o -> nth_error modifiedLines j = Some m ->
  o <> m ->
  ~ In o (skipn j modifiedLines) -> In m (skipn i originalLines) ->
  loop_body originalLines modifiedLines here =
    Some (Loop.Build_state (ls ++ [removeLine o l]) (S l) r (S i) j).
Proof.
  intros Ho Hm Hne Hnin Hin. unfold loop_body. simpl. rewrite Ho, Hm.
  apply String.eqb_neq in Hne. rewrite Hne.
  apply indexOf_not_In in Hnin. unfold Js.slice. rewrite Hnin.
  destruct (Js.indexOf (skipn i originalLines) m =? -1)%Z eqn:E.
  - apply Z.eqb_eq, indexOf_not_In in E. contradiction.
  - reflexivity.
Qed.

(** Neither line comes later on the other side: a modification. *)
Lemma loop_body_modify (o m : string) :
  nth_error originalLines i = Some o -> nth_error modifiedLines j = Some m ->
  o <> m ->
  ~ In o (skipn j modifiedLines) -> ~ In m (skipn i originalLines) ->
  loop_body originalLines modifiedLines here =
    Some (Loop.Build_state ((ls ++ [removeLine o l]) ++ [addLine m r])
                           (S l) (S r) (S i) (S j)).
Proof.
  intros Ho Hm Hne Hno Hnm. unfold loop_body. simpl. rewrite Ho, Hm.
  apply String.eqb_neq in Hne. rewrite Hne.
  apply indexOf_not_In in Hno, Hnm. unfold Js.slice. now rewrite Hno, Hnm.
Qed.

End Branches.

(** Loop invariants, kept by the turns the loop really takes. *)
Lemma while_invariant_body (originalLines modifiedLines : list string)
    (P : Loop.state -> Prop) :
  (forall s s', P s -> loop_body originalLines modifiedLines s = Some s' -> P s') ->
  forall fuel st st',
    P st -> while originalLines modifiedLines fuel st = Some st' -> P st'.
Proof.
  intros Hstep. induction fuel as [|fuel IH]; intros st st' HP; simpl.
  - destruct (loop_body originalLines modifiedLines st); [discriminate|].
    intro H. now inversion H; subst.
  - destruct (loop_body originalLines modifiedLines st) as [s1|] eqn:Hb.
    + apply IH. eapply Hstep; eassumption.
    + intro H. now inversion H; subst.
Qed.

Lemma diffLoop_invariant_body (originalLines modifiedLines : list string)
    (P : Loop.state -> Prop) :
  P (initial) ->
  (forall s s', P s -> loop_body originalLines modifiedLines s = Some s' -> P s') ->
  exists st,
    diffLoop originalLines modifiedLines = Some st /\ P st /\
    nth_error originalLines (Loop.i st) = None /\
    nth_error modifiedLines (Loop.j st) = None.
Proof.
  intros H0 Hstep.
  destruct (diffLoop_returns originalLines modifiedLines (fun _ => True) I)
    as [st [Hrun [_ Hend]]]; [trivial|].
  exists st. split; [exact Hrun|]. split; [|exact Hend].
  unfold diffLoop in Hrun. eapply while_invariant_body; eauto.
Qed.

(** ** generateDiffLines: lines inserted or deleted *)

Lemma unchangedFrom_length (xs : list string) :
  forall l r, List.length (unchangedFrom l r xs) = List.length xs.
Proof.
  induction xs as [|x xs IH]; intros l r; simpl; [reflexivity|]. now rewrite IH.
Qed.

Lemma addFrom_length (xs : list string) :
  forall r, List.length (addFrom r xs) = List.length xs.
Proof.
  induction xs as [|x xs IH]; intro r; simpl; [reflexivity|]. now rewrite IH.
Qed.

Lemma removeFrom_length (xs : list string) :
  forall l, List.length (removeFrom l xs) = List.length xs.
Proof.
  induction xs as [|x xs IH]; intro l; simpl; [reflexivity|]. now rewrite IH.
Qed.

Lemma unchangedFrom_nth (xs : list string) (x : string) :
  forall k l r,
    nth_error xs k = Some x ->
    nth_error (unchangedFrom l r xs) k = Some (unchangedLine x (l + k) (r + k)).
Proof.
  induction xs as [|y xs IH]; intros [|k] l r H; simpl in *; try discriminate.
  - inversion H. now rewrite !Nat.add_0_r.
  - rewrite (IH k (S l) (S r) H). simpl. now rewrite <- !plus_n_Sm.
Qed.

Lemma addFrom_nth (xs : list string) (x : string) :
  forall k r,
    nth_error xs k = Some x ->
    nth_error (addFrom r xs) k = Some (addLine x (r + k)).
Proof.
  induction xs as [|y xs IH]; intros [|k] r H; simpl in *; try discriminate.
  - inversion H. now rewrite Nat.add_0_r.
  - rewrite (IH k (S r) H). simpl. now rewrite <- plus_n_Sm.
Qed.

Lemma removeFrom_nth (xs : list string) (x : string) :
  forall k l,
    nth_error xs k = Some x ->
    nth_error (removeFrom l xs) k = Some (removeLine x (l + k)).
Proof.
  induction xs as [|y xs IH]; intros [|k] l H; simpl in *; try discriminate.
  - inversion H. now rewrite Nat.add_0_r.
  - rewrite (IH k (S l) H). simpl. now rewrite <- plus_n_Sm.
Qed.

Lemma nth_error_in_range {A : Type} (xs : list A) (k : nat) :
  k < List.length xs -> exists x, nth_error xs k = Some x.
Proof.
  intro H. destruct (nth_error xs k) as [x|] eqn:E; [now exists x|].
  apply nth_error_None in E. lia.
Qed.

Lemma skipn_app_past {A : Type} (xs ys : list A) (k : nat) :
  List.length xs <= k -> skipn k (xs ++ ys) = skipn (k - List.length xs) ys.
Proof.
  intro H. rewrite skipn_app. now rewrite skipn_all2 by assumption.
Qed.

Section Inserted.

Variables p t s : list string.

Lemma insertedLines_length :
  List.length (insertedLines p t s) = List.length p + List.length t + List.length s.
Proof.
  unfold insertedLines.
  rewrite !length_app, !unchangedFrom_length, addFrom_length. lia.
Qed.

Lemma insertedLines_nth_p (j : nat) (x : string) :
  nth_error p j = Some x ->
  nth_error (insertedLines p t s) j = Some (unchangedLine x (S j) (S j)).
Proof.
  intro H. unfold insertedLines. pose proof (nth_error_lt _ _ _ H).
  rewrite nth_error_app1 by (now rewrite unchangedFrom_length).
  now rewrite (unchangedFrom_nth _ _ _ _ _ H).
Qed.

Lemma insertedLines_nth_t (j : nat) (x : string) :
  List.length p <= j -> nth_error t (j - List.length p) = Some x ->
  nth_error (insertedLines p t s) j = Some (addLine x (S j)).
Proof.
  intros Hj H. unfold insertedLines. pose proof (nth_error_lt _ _ _ H).
  rewrite nth_error_app2 by (now rewrite unchangedFrom_length).
  rewrite unchangedFrom_length.
  rewrite nth_error_app1 by (now rewrite addFrom_length).
  rewrite (addFrom_nth _ _ _ _ H). do 2 f_equal. lia.
Qed.

Lemma insertedLines_nth_s (j : nat) (x : string) :
  List.length p + List.length t <= j ->
  nth_error s (j - List.length p - List.length t) = Some x ->
  nth_error (insertedLines p t s) j =
    Some (unchangedLine x (S (j - List.length t)) (S j)).
Proof.
  intros Hj H. unfold insertedLines.
  rewrite nth_error_app2 by (rewrite unchangedFrom_length; lia).
  rewrite unchangedFrom_length.
  rewrite nth_error_app2 by (rewrite addFrom_length; lia).
  rewrite addFrom_length.
  rewrite (unchangedFrom_nth _ _ _ _ _ H). f_equal. f_equal; lia.
Qed.

Hypothesis fresh : forall x, In x t -> ~ In x s.

Lemma loop_body_insert (st st' : Loop.state) :
  insert_inv p t s st ->
  loop_body (p ++ s) (p ++ t ++ s) st = Some st' ->
  insert_inv p t s st'.
Proof.
  destruct st as [ls l r i j]. unfold insert_inv.
  cbn [Loop.lines Loop.i Loop.j Loop.leftLine Loop.rightLine].
  intros (Hl & Hr & Hj & Ha & Hb & Hc & Hls) Hbody.
  destruct (Nat.lt_ge_cases j (List.length p)) as [Hjp|Hjp].
  - (* within [p]: kept *)
    destruct (nth_error_in_range p j Hjp) as [x Hx].
    assert (Hi : i = j) by lia. subst i.
    rewrite (loop_body_keep _ _ _ _ _ _ _ x) in Hbody
      by (rewrite nth_error_app1 by assumption; exact Hx).
    inversion Hbody; subst; clear Hbody.
    cbn [Loop.lines Loop.i Loop.j Loop.leftLine Loop.rightLine].
    rewrite (firstn_snoc _ _ _ (insertedLines_nth_p j x Hx)).
    repeat split; try lia.
  - destruct (Nat.lt_ge_cases j (List.length p + List.length t)) as [Hjt|Hjt].
    + (* within [t]: added *)
      assert (Hi : i = List.length p) by lia. subst i.
      destruct (nth_error_in_range t (j - List.length p)) as [m Hm]; [lia|].
      assert (Hm' : nth_error (p ++ t ++ s) j = Some m).
      { rewrite nth_error_app2 by assumption.
        rewrite nth_error_app1 by lia. exact Hm. }
      assert (Hadd : loop_body (p ++ s) (p ++ t ++ s)
                       (Loop.Build_state ls l r (List.length p) j)
                     = Some (Loop.Build_state (ls ++ [addLine m r]) l (S r)
                                              (List.length p) (S j))).
      { destruct (nth_error (p ++ s) (List.length p)) as [o|] eqn:Ho.
        - rewrite nth_error_app2, Nat.sub_diag in Ho by lia.
          assert (Hos : In o s) by (eapply nth_error_In; exact Ho).
          assert (Hmt : In m t) by (eapply nth_error_In; exact Hm).
          apply (loop_body_add_ahead _ _ _ _ _ _ _ o m); try assumption.
          + rewrite nth_error_app2, Nat.sub_diag by lia. exact Ho.
          + intros ->. now apply (fresh m).
          + rewrite skipn_app_past by assumption.
            rewrite skipn_app. apply in_or_app. right.
            now replace (j - List.length p - List.length t) with 0 by lia.
          + rewrite skipn_app_past, Nat.sub_diag by lia. simpl.
            now apply fresh.
        - now apply loop_body_add_end. }
      rewrite Hadd in Hbody. inversion Hbody; subst; clear Hbody.
      cbn [Loop.lines Loop.i Loop.j Loop.leftLine Loop.rightLine].
      rewrite (firstn_snoc _ _ _ (insertedLines_nth_t j m Hjp Hm)).
      repeat split; try lia.
    + destruct (Nat.lt_ge_cases j (List.length p + List.length t + List.length s))
        as [Hjs|Hjs].
      * (* within [s]: kept *)
        assert (Hi : i = j - List.length t) by lia. subst i.
        destruct (nth_error_in_range s (j - List.length p - List.length t))
          as [x Hx]; [lia|].
        rewrite (loop_body_keep _ _ _ _ _ _ _ x) in Hbody.
        -- inversion Hbody; subst; clear Hbody.
           cbn [Loop.lines Loop.i Loop.j Loop.leftLine Loop.rightLine].
           rewrite (firstn_snoc _ _ _ (insertedLines_nth_s j x Hjt Hx)).
           repeat split; try lia.
        -- rewrite nth_error_app2 by lia. rewrite <- Hx. f_equal. lia.
        -- rewrite nth_error_app2 by lia. rewrite nth_error_app2 by lia. exact Hx.
      * (* the end: no turn *)
        exfalso. unfold loop_body in Hbody. simpl in Hbody.
        assert (Ho : nth_error (p ++ s) i = None)
          by (apply nth_error_None; rewrite length_app; lia).
        assert (Hm : nth_error (p ++ t ++ s) j = None)
          by (apply nth_error_None; rewrite !length_app; lia).
        rewrite Ho, Hm in Hbody. discriminate.
Qed.

(** The loop on [p], [s] against [p], [t], [s]. *)
Lemma diffLoop_insert :
  exists st,
    diffLoop (p ++ s) (p ++ t ++ s) = Some st /\
    Loop.lines st = insertedLines p t s.
Proof.
  destruct (diffLoop_invariant_body (p ++ s) (p ++ t ++ s) (insert_inv p t s))
    as [st [Hrun [(_ & _ & Hj & _ & _ & _ & Hls) [_ Hend]]]].
  - unfold insert_inv. simpl. repeat split; lia.
  - apply loop_body_insert.
  - exists st. split; [exact Hrun|].
    apply nth_error_None in Hend. rewrite !length_app in Hend.
    rewrite Hls. apply firstn_all2. rewrite insertedLines_length. lia.
Qed.

End Inserted.

Section Deleted.

Variables p t s : list string.

Lemma deletedLines_length :
  List.length (deletedLines p t s) = List.length p + List.length t + List.length s.
Proof.
  unfold deletedLines.
  rewrite !length_app, !unchangedFrom_length, removeFrom_length. lia.
Qed.

Lemma deletedLines_nth_p (i : nat) (x : string) :
  nth_error p i = Some x ->
  nth_error (deletedLines p t s) i = Some (unchangedLine x (S i) (S i)).
Proof.
  intro H. unfold deletedLines. pose proof (nth_error_lt _ _ _ H).
  rewrite nth_error_app1 by (now rewrite unchangedFrom_length).
  now rewrite (unchangedFrom_nth _ _ _ _ _ H).
Qed.

Lemma deletedLines_nth_t (i : nat) (x : string) :
  List.length p <= i -> nth_error t (i - List.length p) = Some x ->
  nth_error (deletedLines p t s) i = Some (removeLine x (S i)).
Proof.
  intros Hi H. unfold deletedLines. pose proof (nth_error_lt _ _ _ H).
  rewrite nth_error_app2 by (now rewrite unchangedFrom_length).
  rewrite unchangedFrom_length.
  rewrite nth_error_app1 by (now rewrite removeFrom_length).
  rewrite (removeFrom_nth _ _ _ _ H). do 2 f_equal. lia.
Qed.

Lemma deletedLines_nth_s (i : nat) (x : string) :
  List.length p + List.length t <= i ->
  nth_error s (i - List.length p - List.length t) = Some x ->
  nth_error (deletedLines p t s) i =
    Some (unchangedLine x (S i) (S (i - List.length t))).
Proof.
  intros Hi H. unfold deletedLines.
  rewrite nth_error_app2 by (rewrite unchangedFrom_length; lia).
  rewrite unchangedFrom_length.
  rewrite nth_error_app2 by (rewrite removeFrom_length; lia).
  rewrite removeFrom_length.
  rewrite (unchangedFrom_nth _ _ _ _ _ H). f_equal. f_equal; lia.
Qed.

Hypothesis gone : forall x, In x t -> ~ In x s.

Lemma loop_body_delete (st st' : Loop.state) :
  delete_inv p t s st ->
  loop_body (p ++ t ++ s) (p ++ s) st = Some st' ->
  delete_inv p t s st'.
Proof.
  destruct st as [ls l r i j]. unfold delete_inv.
  cbn [Loop.lines Loop.i Loop.j Loop.leftLine Loop.rightLine].
  intros (Hl & Hr & Hi & Ha & Hb & Hc & Hls) Hbody.
  destruct (Nat.lt_ge_cases i (List.length p)) as [Hip|Hip].
  - (* within [p]: kept *)
    destruct (nth_error_in_range p i Hip) as [x Hx].
    assert (Hj : j = i) by lia. subst j.
    rewrite (loop_body_keep _ _ _ _ _ _ _ x) in Hbody
      by (rewrite nth_error_app1 by assumption; exact Hx).
    inversion Hbody; subst; clear Hbody.
    cbn [Loop.lines Loop.i Loop.j Loop.leftLine Loop.rightLine].
    rewrite (firstn_snoc _ _ _ (deletedLines_nth_p i x Hx)).
    repeat split; try lia.
  - destruct (Nat.lt_ge_cases i (List.length p + List.length t)) as [Hit|Hit].
    + (* within [t]: removed *)
      assert (Hj : j = List.length p) by lia. subst j.
      destruct (nth_error_in_range t (i - List.length p)) as [o Ho]; [lia|].
      assert (Ho' : nth_error (p ++ t ++ s) i = Some o).
      { rewrite nth_error_app2 by assumption.
        rewrite nth_error_app1 by lia. exact Ho. }
      assert (Hrem : loop_body (p ++ t ++ s) (p ++ s)
                       (Loop.Build_state ls l r i (List.length p))
                     = Some (Loop.Build_state (ls ++ [removeLine o l]) (S l) r
                                              (S i) (List.length p))).
      { destruct (nth_error (p ++ s) (List.length p)) as [m|] eqn:Hm.
        - rewrite nth_error_app2, Nat.sub_diag in Hm by lia.
          assert (Hms : In m s) by (eapply nth_error_In; exact Hm).
          assert (Hot : In o t) by (eapply nth_error_In; exact Ho).
          apply (loop_body_remove_ahead _ _ _ _ _ _ _ o m); try assumption.
          + rewrite nth_error_app2, Nat.sub_diag by lia. exact Hm.
          + intros ->. now apply (gone m).
          + rewrite skipn_app_past, Nat.sub_diag by lia. simpl.
            now apply gone.
          + rewrite skipn_app_past by assumption.
            rewrite skipn_app. apply in_or_app. right.
            now replace (i - List.length p - List.length t) with 0 by lia.
        - now apply loop_body_remove_end. }
      rewrite Hrem in Hbody. inversion Hbody; subst; clear Hbody.
      cbn [Loop.lines Loop.i Loop.j Loop.leftLine Loop.rightLine].
      rewrite (firstn_snoc _ _ _ (deletedLines_nth_t i o Hip Ho)).
      repeat split; try lia.
    + destruct (Nat.lt_ge_cases i (List.length p + List.length t + List.length s))
        as [His|His].
      * (* within [s]: kept *)
        assert (Hj : j = i - List.length t) by lia. subst j.
        destruct (nth_error_in_range s (i - List.length p - List.length t))
          as [x Hx]; [lia|].
        rewrite (loop_body_keep _ _ _ _ _ _ _ x) in Hbody.
        -- inversion Hbody; subst; clear Hbody.
           cbn [Loop.lines Loop.i Loop.j Loop.leftLine Loop.rightLine].
           rewrite (firstn_snoc _ _ _ (deletedLines_nth_s i x Hit Hx)).
           repeat split; try lia.
        -- rewrite nth_error_app2 by lia. rewrite nth_error_app2 by lia. exact Hx.
        -- rewrite nth_error_app2 by lia. rewrite <- Hx. f_equal. lia.
      * (* the end: no turn *)
        exfalso. unfold loop_body in Hbody. simpl in Hbody.
        assert (Ho : nth_error (p ++ t ++ s) i = None)
          by (apply nth_error_None; rewrite !length_app; lia).
        assert (Hm : nth_error (p ++ s) j = None)
          by (apply nth_error_None; rewrite length_app; lia).
        rewrite Ho, Hm in Hbody. discriminate.
Qed.

(** The loop on [p], [t], [s] against [p], [s]. *)
Lemma diffLoop_delete :
  exists st,
    diffLoop (p ++ t ++ s) (p ++ s) = Some st /\
    Loop.lines st = deletedLines p t s.
Proof.
  destruct (diffLoop_invariant_body (p ++ t ++ s) (p ++ s) (delete_inv p t s))
    as [st [Hrun [(_ & _ & Hi & _ & _ & _ & Hls) [Hend _]]]].
  - unfold delete_inv. simpl. repeat split; lia.
  - apply loop_body_delete.
  - exists st. split; [exact Hrun|].
    apply nth_error_None in Hend. rewrite !length_app in Hend.
    rewrite Hls. apply firstn_all2. rewrite deletedLines_length. lia.
Qed.

End Deleted.

Lemma generateDiffLines_of_loop (original modified : string) (st : Loop.state) :
  diffLoop (Js.split original) (Js.split modified) = Some st ->
  generateDiffLines original modified = Loop.lines st.
Proof.
  intro H. unfold generateDiffLines, generateDiffLines_opt. now rewrite H.
Qed.

(** X18.  Lines inserted: when no line of [t] is a line of [s], the diff
    of [s] against [t], a line feed and [s] adds the lines of [t] and
    keeps the lines of [s]; and with a text [p] in front of both, the diff
    keeps the lines of [p], adds the lines of [t] and keeps the lines of
    [s], with the line numbers of the two sides. *)
Theorem X18_lines_inserted (p t s : string) :
  (forall x, In x (Js.split t) -> ~ In x (Js.split s)) ->
  generateDiffLines s (t ++ Js.newline ++ s)%string =
    addFrom 1 (Js.split t) ++ unchangedFrom 1 (S (lineCount t)) (Js.split s) /\
  generateDiffLines (p ++ Js.newline ++ s)%string
                    (p ++ Js.newline ++ t ++ Js.newline ++ s)%string =
    unchangedFrom 1 1 (Js.split p)
    ++ addFrom (S (lineCount p)) (Js.split t)
    ++ unchangedFrom (S (lineCount p)) (S (lineCount p + lineCount t)) (Js.split s).
Proof.
  intro Hfresh. unfold lineCount. split.
  - destruct (diffLoop_insert [] (Js.split t) (Js.split s) Hfresh) as [st [Hrun Hls]].
    simpl in Hrun. rewrite <- split_app in Hrun.
    now rewrite (generateDiffLines_of_loop _ _ _ Hrun).
  - destruct (diffLoop_insert (Js.split p) (Js.split t) (Js.split s) Hfresh)
      as [st [Hrun Hls]].
    rewrite <- !split_app in Hrun.
    now rewrite (generateDiffLines_of_loop _ _ _ Hrun).
Qed.

(** X18, for the texts [p], [t], [s] of one line each. *)
Lemma X18_lines_inserted_witness :
  generateDiffLines "s" ("t" ++ Js.newline ++ "s")%string =
    addFrom 1 (Js.split "t") ++ unchangedFrom 1 (S (lineCount "t")) (Js.split "s") /\
  generateDiffLines ("p" ++ Js.newline ++ "s")%string
                    ("p" ++ Js.newline ++ "t" ++ Js.newline ++ "s")%string =
    unchangedFrom 1 1 (Js.split "p")
    ++ addFrom (S (lineCount "p")) (Js.split "t")
    ++ unchangedFrom (S (lineCount "p")) (S (lineCount "p" + lineCount "t"))
                     (Js.split "s").
Proof.
  apply (X18_lines_inserted "p" "t" "s").
  intros x [<-|[]] [H|[]]. discriminate.
Defined.

(** X19.  Lines deleted: when no line of [t] is a line of [s], the diff of
    [t], a line feed and [s] against [s] removes the lines of [t] and
    keeps the lines of [s]; and with a text [p] in front of both, the diff
    keeps the lines of [p], removes the lines of [t] and keeps the lines
    of [s]. *)
Theorem X19_lines_deleted (p t s : string) :
  (forall x, In x (Js.split t) -> ~ In x (Js.split s)) ->
  generateDiffLines (t ++ Js.newline ++ s)%string s =
    removeFrom 1 (Js.split t) ++ unchangedFrom (S (lineCount t)) 1 (Js.split s) /\
  generateDiffLines (p ++ Js.newline ++ t ++ Js.newline ++ s)%string
                    (p ++ Js.newline ++ s)%string =
    unchangedFrom 1 1 (Js.split p)
    ++ removeFrom (S (lineCount p)) (Js.split t)
    ++ unchangedFrom (S (lineCount p + lineCount t)) (S (lineCount p)) (Js.split s).
Proof.
  intro Hgone. unfold lineCount. split.
  - destruct (diffLoop_delete [] (Js.split t) (Js.split s) Hgone) as [st [Hrun Hls]].
    simpl in Hrun. rewrite <- split_app in Hrun.
    now rewrite (generateDiffLines_of_loop _ _ _ Hrun).
  - destruct (diffLoop_delete (Js.split p) (Js.split t) (Js.split s) Hgone)
      as [st [Hrun Hls]].
    rewrite <- !split_app in Hrun.
    now rewrite (generateDiffLines_of_loop _ _ _ Hrun).
Qed.

(** X19, for the texts [p], [t], [s] of one line each. *)
Lemma X19_lines_deleted_witness :
  generateDiffLines ("t" ++ Js.newline ++ "s")%string "s" =
    removeFrom 1 (Js.split "t") ++ unchangedFrom (S (lineCount "t")) 1 (Js.split "s") /\
  generateDiffLines ("p" ++ Js.newline ++ "t" ++ Js.newline ++ "s")%string
                    ("p" ++ Js.newline ++ "s")%string =
    unchangedFrom 1 1 (Js.split "p")
    ++ removeFrom (S (lineCount "p")) (Js.split "t")
    ++ unchangedFrom (S (lineCount "p" + lineCount "t")) (S (lineCount "p"))
                     (Js.split "s").
Proof.
  apply (X19_lines_deleted "p" "t" "s").
  intros x [<-|[]] [H|[]]. discriminate.
Defined.

(** ** generateDiffLines: texts without a common line *)

Lemma skipn_cons_nth {A : Type} (xs : list A) (k : nat) (x : A) :
  nth_error xs k = Some x -> skipn k xs = x :: skipn (S k) xs.
Proof.
  revert k. induction xs as [|y xs IH]; intros [|k] H; simpl in *; try discriminate.
  - now inversion H.
  - now apply IH.
Qed.

Lemma skipn_In {A : Type} (xs : list A) (k : nat) (x : A) :
  In x (skipn k xs) -> In x xs.
Proof.
  intro H. rewrite <- (firstn_skipn k xs). apply in_or_app. now right.
Qed.

Lemma modifiedFrom_nil_l (l r : nat) (ys : list string) :
  modifiedFrom l r [] ys = addFrom r ys.
Proof.
  now destruct ys.
Qed.

Lemma modifiedFrom_nil_r (l r : nat) (xs : list string) :
  modifiedFrom l r xs [] = removeFrom l xs.
Proof.
  now destruct xs.
Qed.

Lemma loop_body_modified (xs ys : list string) (st st' : Loop.state) :
  (forall x, In x xs -> ~ In x ys) ->
  modify_inv xs ys st -> loop_body xs ys st = Some st' -> modify_inv xs ys st'.
Proof.
  intro Hdisj. destruct st as [ls l r i j]. unfold modify_inv.
  cbn [Loop.lines Loop.i Loop.j Loop.leftLine Loop.rightLine].
  intros (Hl & Hr & Hls) Hbody.
  destruct (nth_error xs i) as [o|] eqn:Ho;
    destruct (nth_error ys j) as [m|] eqn:Hm.
  - assert (Hox : In o xs) by (eapply nth_error_In; exact Ho).
    assert (Hmy : In m ys) by (eapply nth_error_In; exact Hm).
    rewrite (loop_body_modify _ _ _ _ _ _ _ o m Ho Hm) in Hbody.
    + inversion Hbody; subst; clear Hbody.
      cbn [Loop.lines Loop.i Loop.j Loop.leftLine Loop.rightLine].
      rewrite (skipn_cons_nth _ _ _ Ho), (skipn_cons_nth _ _ _ Hm) in Hls.
      repeat split. rewrite <- Hls, <- !app_assoc. reflexivity.
    + intros ->. now apply (Hdisj m).
    + intro H. apply skipn_In in H. now apply (Hdisj o).
    + intro H. apply skipn_In in H. now apply (Hdisj m).
  - rewrite (loop_body_remove_end _ _ _ _ _ _ _ o Ho Hm) in Hbody.
    inversion Hbody; subst; clear Hbody.
    cbn [Loop.lines Loop.i Loop.j Loop.leftLine Loop.rightLine].
    assert (Hsk : skipn j ys = [])
      by (apply skipn_all2; now apply nth_error_None).
    rewrite (skipn_cons_nth _ _ _ Ho), Hsk, modifiedFrom_nil_r in Hls.
    rewrite Hsk, modifiedFrom_nil_r.
    repeat split. rewrite <- Hls, <- app_assoc. reflexivity.
  - rewrite (loop_body_add_end _ _ _ _ _ _ _ m Ho Hm) in Hbody.
    inversion Hbody; subst; clear Hbody.
    cbn [Loop.lines Loop.i Loop.j Loop.leftLine Loop.rightLine].
    assert (Hsk : skipn i xs = [])
      by (apply skipn_all2; now apply nth_error_None).
    rewrite (skipn_cons_nth _ _ _ Hm), Hsk, modifiedFrom_nil_l in Hls.
    rewrite Hsk, modifiedFrom_nil_l.
    repeat split. rewrite <- Hls, <- app_assoc. reflexivity.
  - unfold loop_body in Hbody. simpl in Hbody. rewrite Ho, Hm in Hbody. discriminate.
Qed.

(** X20.  Two texts without a common line: [generateDiffLines] takes their
    lines in pairs, the [n]-th left line removed and directly after it the
    [n]-th right line added, both under the number [n], and then removes
    or adds the lines the longer text has left. *)
Theorem X20_disjoint_lines_paired (original modified : string) :
  (forall x, In x (Js.split original) -> ~ In x (Js.split modified)) ->
  generateDiffLines original modified =
    modifiedFrom 1 1 (Js.split original) (Js.split modified).
Proof.
  intro Hdisj.
  destruct (diffLoop_invariant_body (Js.split original) (Js.split modified)
              (modify_inv (Js.split original) (Js.split modified)))
    as [st [Hrun [(_ & _ & Hls) [Hei Hej]]]].
  - unfold modify_inv. simpl. now repeat split.
  - intros st st'. now apply loop_body_modified.
  - rewrite (generateDiffLines_of_loop _ _ _ Hrun).
    apply nth_error_None in Hei, Hej.
    rewrite !skipn_all2 in Hls by assumption. simpl in Hls.
    now rewrite app_nil_r in Hls.
Qed.

(** X20, for the texts [a], [b] and [c]. *)
Lemma X20_disjoint_lines_paired_witness :
  generateDiffLines (joinLines ["a"; "b"]) "c" =
    modifiedFrom 1 1 (Js.split (joinLines ["a"; "b"])) (Js.split "c").
Proof.
  apply (X20_disjoint_lines_paired (joinLines ["a"; "b"]) "c").
  vm_compute. intros x [<-|[<-|[]]] [H|[]]; discriminate.
Defined.

(** ** The split view: modifications on one row *)

Section SplitPairs.

Variable lines : list DiffLine.

Lemma split_body_pairs (st st' : Split.state) :
  split_inv lines st -> pairs_inv lines st ->
  split_body lines st = Some st' -> pairs_inv lines st'.
Proof.
  unfold split_inv, pairs_inv, split_body, Js.push.
  destruct st as [i L R]. cbn [Split.i Split.leftLines Split.rightLines].
  intros (Hlen & _) Hpairs.
  destruct (nth_error lines i) as [thisLine|] eqn:Hthis; [|discriminate].
  assert (Hone : forall a b : option DiffLine,
             (forall nextLine, nth_error lines (S i) = Some nextLine ->
                type thisLine = Remove -> type nextLine = Add -> False) ->
             forall k r' a',
               k < S i ->
               nth_error lines k = Some r' -> type r' = Remove ->
               nth_error lines (S k) = Some a' -> type a' = Add ->
               In (Some r', Some a') (combine (L ++ [a]) (R ++ [b]))).
  { intros a b Hnot k r' a' Hk Hr Htr Ha Hta.
    rewrite combine_snoc by assumption. apply in_or_app.
    destruct (Nat.eq_dec k i) as [->|Hki].
    - exfalso. rewrite Hthis in Hr. inversion Hr; subst. eauto.
    - left. apply (Hpairs k); try assumption. lia. }
  destruct (type thisLine) eqn:Htype.
  - intro H. inversion H; subst. cbn [Split.i Split.leftLines Split.rightLines].
    apply Hone. intros; discriminate.
  - replace (i + 1) with (S i) by lia.
    destruct (nth_error lines (S i)) as [nextLine|] eqn:Hnext.
    + destruct (LineType_eqb (type nextLine) Add) eqn:Hadd.
      * intro H. inversion H; subst. clear H.
        cbn [Split.i Split.leftLines Split.rightLines].
        intros k r' a' Hk Hr Htr Ha Hta.
        rewrite combine_snoc by assumption. apply in_or_app.
        destruct (Nat.eq_dec k (S i)) as [->|Hk1].
        { exfalso. rewrite Hnext in Hr. inversion Hr; subst.
          rewrite Htr in Hadd. discriminate. }
        destruct (Nat.eq_dec k i) as [->|Hk0].
        { right. rewrite Hthis in Hr. rewrite Hnext in Ha.
          inversion Hr; inversion Ha; subst. now left. }
        left. apply (Hpairs k); try assumption. lia.
      * intro H. inversion H; subst. cbn [Split.i Split.leftLines Split.rightLines].
        apply Hone. intros n Hn _ Hta. inversion Hn; subst.
        rewrite Hta in Hadd. discriminate.
    + intro H. inversion H; subst. cbn [Split.i Split.leftLines Split.rightLines].
      apply Hone. intros; discriminate.
  - intro H. inversion H; subst. cbn [Split.i Split.leftLines Split.rightLines].
    apply Hone. intros; discriminate.
Qed.

Lemma split_loop_pairs (fuel : nat) :
  forall st st',
    split_inv lines st -> pairs_inv lines st ->
    split_loop lines fuel st = Some st' -> pairs_inv lines st'.
Proof.
  induction fuel as [|fuel IH]; intros st st' Hinv Hpairs; simpl;
    destruct (split_body lines st) as [st1|] eqn:Hb; try discriminate.
  - intro H. now inversion H; subst.
  - apply IH.
    + now destruct (split_body_inv _ _ _ Hinv Hb).
    + now apply (split_body_pairs st).
  - intro H. now inversion H; subst.
Qed.

End SplitPairs.

(** X21.  Whatever the lines are, a [Remove] line directly followed by an
    [Add] line is shown by [SplitView] on one row, the removed line on the
    left and the added line on the right. *)
Theorem X21_split_pairs_modification (ls : list DiffLine) (k : nat) (r a : DiffLine) :
  nth_error ls k = Some r -> type r = Remove ->
  nth_error ls (S k) = Some a -> type a = Add ->
  In (Some r, Some a) (combine (fst (splitColumns ls)) (snd (splitColumns ls))).
Proof.
  intros Hr Htr Ha Hta.
  destruct (split_loop_returns ls (List.length ls) (split_initial))
    as [st [Hrun [Hinv Hend]]].
  { unfold split_inv. simpl. repeat split; try lia. constructor. }
  { simpl. lia. }
  assert (Hpairs : pairs_inv ls st).
  { apply (split_loop_pairs ls (List.length ls) split_initial st); try assumption.
    - unfold split_inv. simpl. repeat split; try lia. constructor.
    - intros k' r' a' Hk. simpl in Hk. lia. }
  unfold splitColumns, splitColumns_opt. rewrite Hrun. simpl.
  apply (Hpairs k r a); try assumption.
  apply nth_error_None in Hend. pose proof (nth_error_lt _ _ _ Hr). lia.
Qed.

(** X21, for the diff of [cat] against [car]. *)
Lemma X21_split_pairs_modification_witness :
  In (Some (removeLine "cat" 1), Some (addLine "car" 1))
     (combine (fst (splitColumns (generateDiffLines "cat" "car")))
              (snd (splitColumns (generateDiffLines "cat" "car")))).
Proof.
  apply (X21_split_pairs_modification (generateDiffLines "cat" "car") 0
           (removeLine "cat" 1) (addLine "car" 1)); reflexivity.
Defined.
